(** * streamLDA: stream-based online variational Bayes for LDA

  A shallow embedding of [streamlda.py] (Python 2, numpy) and the
  properties of its natural-language specification.

  Conventions of the embedding.
  - numpy floats are idealised as real numbers ([R]); [n.exp] is [exp],
    Python's [pow] on a positive base is [Rpower].
  - [scipy.special.psi] (digamma) is external to the program and is a
    parameter [psi] of every definition that calls it.
  - Python ints are [Z]; word ids and word counts, which are produced
    by [doc_counts.get(wordindex, 0) + 1] and by the store's [index],
    are [nat].
  - Exceptions are values of [result]; code that both mutates and
    raises lives in the state-and-exception monad [M], where the
    mutations made before a [raise] stay visible, as in Python.
  - [dirichlet_words.py] is not part of the sources: the store is the
    interface [DirichletWords], and theorems hold for every
    implementation of it. *)

From Stdlib Require Import Reals Lra Lia ZArith String Ascii List Bool.
From stdpp Require Import gmap strings list.

Set Default Proof Using "Type".

(** ** Exceptions *)

Inductive pyerr : Type :=
| NameError (name : string)
| TypeError
| ValueError
| IndexError
| ZeroDivisionError.

Inductive result (A : Type) : Type :=
| Ok (a : A)
| Raise (e : pyerr).

Arguments Ok {A} a.
Arguments Raise {A} e.

Definition rbind {A B} (c : result A) (k : A → result B) : result B :=
match c with
| Ok a => k a
| Raise e => Raise e
end.

Declare Scope py_scope.
Delimit Scope py_scope with py.
Notation "x <- c ;; k" := (rbind c (fun x => k))
(at level 100, c at next level, right associativity) : py_scope.

Definition is_raise {A} (r : result A) : bool :=
match r with Ok _ => false | Raise _ => true end.

Fixpoint mapR {A B} (f : A → result B) (l : list A) : result (list B) :=
match l with
| [] => Ok []
| x :: l' =>
    (y <- f x ;;
     ys <- mapR f l' ;;
     Ok (y :: ys))%py
end.

(** ** The fragment of numpy the program uses *)

Module np.

Definition vec : Type := list R.
Definition mat : Type := list (list R).

(** A numpy array of one or of two dimensions; a matrix is the list
    of its rows. *)
Inductive ndarray : Type :=
| Arr1 (v : vec)
| Arr2 (m : mat).

(** [len(a)]: the size of the first dimension. *)
Definition len (a : ndarray) : nat :=
  match a with
  | Arr1 v => length v
  | Arr2 m => length m
  end.

Definition vsum (v : vec) : R := foldr Rplus 0%R v.

(** [n.sum(a)]: the sum of all entries. *)
Definition sum (a : ndarray) : R :=
  match a with
  | Arr1 v => vsum v
  | Arr2 m => vsum (map vsum m)
  end.

(** [n.sum(a, 1)]: sums along axis 1; a one-dimensional array has no
    axis 1 and numpy raises (ValueError, in later versions its
    subclass AxisError). *)
Definition sum_axis1 (a : ndarray) : result vec :=
  match a with
  | Arr1 _ => Raise ValueError
  | Arr2 m => Ok (map vsum m)
  end.

(** A ufunc applied to every entry ([psi(a)], [n.exp(a)], [abs(a)]). *)
Definition ufunc (f : R → R) (a : ndarray) : ndarray :=
  match a with
  | Arr1 v => Arr1 (map f v)
  | Arr2 m => Arr2 (map (map f) m)
  end.

(** [a - c] for a scalar [c]. *)
Definition sub_scalar (a : ndarray) (c : R) : ndarray :=
  ufunc (fun x => (x - c)%R) a.

(** [m - col[:, n.newaxis]]: row [i] of [m] minus the scalar [col[i]]. *)
Definition sub_column (m : mat) (col : vec) : mat :=
  zip_with (fun row c => map (fun x => (x - c)%R) row) m col.

(** [a - col[:, n.newaxis]]; against a one-dimensional [a] the column
    broadcasts to one copy of [a] per entry of [col]. *)
Definition sub_newaxis (a : ndarray) (col : vec) : ndarray :=
  match a with
  | Arr1 v => Arr2 (map (fun c => map (fun x => (x - c)%R) v) col)
  | Arr2 m => Arr2 (sub_column m col)
  end.

Definition as_vec (a : ndarray) : result vec :=
  match a with
  | Arr1 v => Ok v
  | Arr2 _ => Raise TypeError
  end.

(** Element-wise binary operation on one-dimensional arrays, with
    numpy's broadcasting of a length-one operand. *)
Definition broadcast (f : R → R → R) (a b : vec) : result vec :=
  if (length a =? length b)%nat then Ok (zip_with f a b)
  else if (length a =? 1)%nat then Ok (map (f (hd 0%R a)) b)
  else if (length b =? 1)%nat then Ok (map (fun x => f x (hd 0%R b)) a)
  else Raise ValueError.

(** Element-wise product of two matrices, broadcasting a single row
    and, inside rows, a single column. *)
Definition mul2 (a b : mat) : result mat :=
  if (length a =? length b)%nat
  then mapR (fun '(x, y) => broadcast Rmult x y) (zip a b)
  else if (length a =? 1)%nat
  then mapR (fun y => broadcast Rmult (hd [] a) y) b
  else if (length b =? 1)%nat
  then mapR (fun x => broadcast Rmult x (hd [] b)) a
  else Raise ValueError.

(** [m[:, ids]]: the columns of [m] listed in [ids]; an id beyond the
    last column raises IndexError. *)
Definition take_cols (m : mat) (ids : list nat) : result mat :=
  mapR (fun row : vec =>
          mapR (fun j => match row !! j with
                         | Some x => Ok x
                         | None => Raise IndexError
                         end) ids) m.

Definition column (m : mat) (j : nat) : vec :=
  map (fun row => nth j row 0%R) m.

(** [n.dot(v, m)] for a vector [v] and a matrix [m] of [ncols]
    columns (a list of rows forgets the column count of a matrix
    without rows, hence the argument). *)
Definition dot_vm (v : vec) (m : mat) (ncols : nat) : result vec :=
  if (length v =? length m)%nat
  then Ok (map (fun j => vsum (zip_with Rmult v (column m j))) (seq 0 ncols))
  else Raise ValueError.

(** [n.dot(v, m.T)]: entry [k] is the inner product of [v] with row
    [k] of [m]. *)
Definition dot_vmT (v : vec) (m : mat) : result vec :=
  if forallb (fun row : vec => (length row =? length v)%nat) m
  then Ok (map (fun row => vsum (zip_with Rmult v row)) m)
  else Raise ValueError.

(** [n.outer(u, v)]. *)
Definition outer (u v : vec) : mat :=
  map (fun x => map (fun y => (x * y)%R) v) u.

(** [n.mean(v)]. *)
Definition mean (v : vec) : R := (vsum v / INR (length v))%R.

End np.

Import np.

(** ** dirichlet_expectation (lines 27-37) *)

Section Digamma.

(** [scipy.special.psi]. *)
Variable psi : R → R.

(** [meanchangethresh = 0.001] (line 25). *)
Definition meanchangethresh : R := (1 / 1000)%R.

Definition dirichlet_expectation (alpha : ndarray) : result ndarray :=
  if (len alpha =? 1)%nat
  then Ok (sub_scalar (ufunc psi alpha) (psi (np.sum alpha)))
  else (s <- sum_axis1 alpha ;;
        Ok (sub_newaxis (ufunc psi alpha) (map psi s)))%py.

End Digamma.

(** ** Names and values of the Python run time *)

(** The values a global name of the module can be bound to, and the
    values the statistics loop iterates over and indexes with. *)
#[warnings="-register-all"]
Inductive pyval : Type :=
| PyInt (z : Z)
| PyFloat (x : R)
| PyList (l : list pyval)
| PyModule (name : string)
| PyFunction (name : string)
| PyClass (name : string).

(** The global names of [streamlda.py] after its import: the imports
    of lines 19-22, [meanchangethresh], [dirichlet_expectation] and
    [StreamLDA]. *)
Definition module_globals : list (string * pyval) :=
  [ ("sys", PyModule "sys"); ("re", PyModule "re");
    ("time", PyModule "time"); ("string", PyModule "string");
    ("n", PyModule "numpy");
    ("gammaln", PyFunction "gammaln"); ("psi", PyFunction "psi");
    ("DirichletWords", PyClass "DirichletWords");
    ("meanchangethresh", PyFloat meanchangethresh);
    ("dirichlet_expectation", PyFunction "dirichlet_expectation");
    ("StreamLDA", PyClass "StreamLDA") ]%string.

(** The built-in names the module refers to. *)
Definition builtins : list (string * pyval) :=
  map (fun name => (name, PyFunction name))
      [ "len"; "range"; "type"; "str"; "list"; "zip"; "abs"; "max";
        "sum"; "pow" ]%string.

Fixpoint assoc (name : string) (env : list (string * pyval)) : option pyval :=
  match env with
  | [] => None
  | (k, v) :: env' => if String.eqb name k then Some v else assoc name env'
  end.

(** A name that the function never assigns is looked up among the
    globals of the module, then among the built-ins; a name bound in
    neither raises NameError. *)
Definition load_global (name : string) : result pyval :=
  match assoc name (module_globals ++ builtins) with
  | Some v => Ok v
  | None => Raise (NameError name)
  end.

(** [for x in v]: only a sequence can be iterated; an int, a float, a
    module, a function or one of these classes raises TypeError. *)
Definition py_iter (v : pyval) : result (list pyval) :=
  match v with
  | PyList l => Ok l
  | _ => Raise TypeError
  end.

Definition as_int (v : pyval) : result Z :=
  match v with
  | PyInt z => Ok z
  | _ => Raise TypeError
  end.

(** A Python index into a sequence of [len] items: negative indices
    count from the end. *)
Definition norm_index (len : nat) (i : Z) : result nat :=
  if ((0 <=? i) && (i <? Z.of_nat len))%Z then Ok (Z.to_nat i)
  else if ((- Z.of_nat len <=? i) && (i <? 0))%Z then Ok (Z.to_nat (Z.of_nat len + i))
  else Raise IndexError.

(** [m[i, j]]. *)
Definition index2 (m : mat) (i j : pyval) : result R :=
  (i <- as_int i ;;
   j <- as_int j ;;
   r <- norm_index (length m) i ;;
   match m !! r with
   | None => Raise IndexError
   | Some row =>
       c <- norm_index (length row) j ;;
       match row !! c with
       | None => Raise IndexError
       | Some x => Ok x
       end
   end)%py.

(** [l[d]] for a list. *)
Definition item {A} (l : list A) (d : nat) : result A :=
  match l !! d with
  | Some x => Ok x
  | None => Raise IndexError
  end.

(** Python 2 [a / b] on two ints: floor division. *)
Definition py2_int_div (a b : Z) : result Z :=
  if (b =? 0)%Z then Raise ZeroDivisionError else Ok (a / b)%Z.

(** ** The vocabulary store the program is written against

    [dirichlet_words.py] is not among the sources; these are the
    attributes and methods of a [DirichletWords] object that
    [streamlda.py] uses. *)
Class DirichletWords (dw : Type) : Type := {
  (** [DirichletWords(K)] *)
  dw_new : Z → dw;
  (** [.index(word)]: the id of [word], registering it when unseen *)
  dw_index : string → dw → nat * dw;
  (** [.as_matrix()] *)
  dw_as_matrix : dw → mat;
  (** [.update_counts(word, topic, stats)] *)
  dw_update_counts : Z → Z → R → dw → dw;
  (** [.merge(new_lambda, rhot)] *)
  dw_merge : dw → R → dw → dw;
  (** [.forget(fraction)] *)
  dw_forget : R → dw → dw;
  (** [len(._words)] *)
  dw_words_len : dw → nat;
  (** [.max_tables] *)
  dw_max_tables : dw → Z
}.

(** ** Text normalisation (lines 117-121) *)

Definition on_chars (f : list ascii → list ascii) (s : string) : string :=
  string_of_list_ascii (f (list_ascii_of_string s)).

(** [str.lower()] on a byte string: the letters A-Z become a-z. *)
Definition lower_char (c : ascii) : ascii :=
  let n := nat_of_ascii c in
  if ((65 <=? n) && (n <=? 90))%nat then ascii_of_nat (n + 32) else c.

Definition lower : string → string := on_chars (map lower_char).

(** [re.sub(r'-', ' ', s)] *)
Definition hyphen_to_space (c : ascii) : ascii :=
  if Ascii.eqb c "-" then " "%char else c.

Definition sub_hyphen : string → string := on_chars (map hyphen_to_space).

(** [re.sub(r'[^a-z ]', '', s)] *)
Definition is_lower_or_space (c : ascii) : bool :=
  let n := nat_of_ascii c in
  ((97 <=? n) && (n <=? 122))%nat || Ascii.eqb c " ".

Definition sub_non_alpha : string → string :=
  on_chars (List.filter is_lower_or_space).

(** [re.sub(r' +', ' ', s)]: every maximal run of spaces becomes one
    space; [after_space] tells that the previous character was one. *)
Fixpoint collapse (after_space : bool) (s : list ascii) : list ascii :=
  match s with
  | [] => []
  | c :: s' =>
      if Ascii.eqb c " "
      then if after_space then collapse true s' else c :: collapse true s'
      else c :: collapse false s'
  end.

Definition sub_spaces : string → string := on_chars (collapse false).

(** The four rewritings of lines 117-120 in sequence. *)
Definition normalize (s : string) : string :=
  sub_spaces (sub_non_alpha (sub_hyphen (lower s))).

(** [string.split(s)]: the maximal runs of non-whitespace characters. *)
Definition is_whitespace (c : ascii) : bool :=
  let n := nat_of_ascii c in
  (n =? 32)%nat || ((9 <=? n) && (n <=? 13))%nat.

Fixpoint split_chars (cur : list ascii) (s : list ascii) : list string :=
  match s with
  | [] => match cur with
          | [] => []
          | _ => [string_of_list_ascii (rev cur)]
          end
  | c :: s' =>
      if is_whitespace c
      then match cur with
           | [] => split_chars [] s'
           | _ => string_of_list_ascii (rev cur) :: split_chars [] s'
           end
      else split_chars (c :: cur) s'
  end.

Definition split (s : string) : list string :=
  split_chars [] (list_ascii_of_string s).

(** ** The model object, the heap of list objects, the monad *)

(** A reference to a Python list object. *)
Definition loc : Type := nat.

(** What a caller passes as [docs]: a single string (immutable), or a
    reference to a list of strings that the caller keeps. *)
Inductive docs_arg : Type :=
| DocStr (s : string)
| DocList (l : loc).

Section Model.

Context {dw : Type} `{!DirichletWords dw}.

(** [scipy.special.psi]. *)
Variable psi : R → R.

(** The attributes of a [StreamLDA] instance; [_rhot] exists only
    after the first call of [update_lambda]. *)
Record StreamLDA : Type := {
  _K : Z;
  _alpha : R;
  _eta : R;
  _tau0 : R;
  _kappa : R;
  _D : Z;
  _batches_to_date : Z;
  _lambda : dw;
  _Elogbeta : mat;
  _expElogbeta : mat;
  _rhot : option R
}.

Definition set_D (v : Z) (s : StreamLDA) : StreamLDA :=
  {| _K := _K s; _alpha := _alpha s; _eta := _eta s; _tau0 := _tau0 s;
     _kappa := _kappa s; _D := v; _batches_to_date := _batches_to_date s;
     _lambda := _lambda s; _Elogbeta := _Elogbeta s;
     _expElogbeta := _expElogbeta s; _rhot := _rhot s |}.

Definition set_batches_to_date (v : Z) (s : StreamLDA) : StreamLDA :=
  {| _K := _K s; _alpha := _alpha s; _eta := _eta s; _tau0 := _tau0 s;
     _kappa := _kappa s; _D := _D s; _batches_to_date := v;
     _lambda := _lambda s; _Elogbeta := _Elogbeta s;
     _expElogbeta := _expElogbeta s; _rhot := _rhot s |}.

Definition set_lambda (v : dw) (s : StreamLDA) : StreamLDA :=
  {| _K := _K s; _alpha := _alpha s; _eta := _eta s; _tau0 := _tau0 s;
     _kappa := _kappa s; _D := _D s; _batches_to_date := _batches_to_date s;
     _lambda := v; _Elogbeta := _Elogbeta s;
     _expElogbeta := _expElogbeta s; _rhot := _rhot s |}.

Definition set_Elogbeta (v : mat) (s : StreamLDA) : StreamLDA :=
  {| _K := _K s; _alpha := _alpha s; _eta := _eta s; _tau0 := _tau0 s;
     _kappa := _kappa s; _D := _D s; _batches_to_date := _batches_to_date s;
     _lambda := _lambda s; _Elogbeta := v;
     _expElogbeta := _expElogbeta s; _rhot := _rhot s |}.

Definition set_expElogbeta (v : mat) (s : StreamLDA) : StreamLDA :=
  {| _K := _K s; _alpha := _alpha s; _eta := _eta s; _tau0 := _tau0 s;
     _kappa := _kappa s; _D := _D s; _batches_to_date := _batches_to_date s;
     _lambda := _lambda s; _Elogbeta := _Elogbeta s;
     _expElogbeta := v; _rhot := _rhot s |}.

Definition set_rhot (v : R) (s : StreamLDA) : StreamLDA :=
  {| _K := _K s; _alpha := _alpha s; _eta := _eta s; _tau0 := _tau0 s;
     _kappa := _kappa s; _D := _D s; _batches_to_date := _batches_to_date s;
     _lambda := _lambda s; _Elogbeta := _Elogbeta s;
     _expElogbeta := _expElogbeta s; _rhot := Some v |}.

(** Everything a method call can change: the instance and the list
    objects reachable from the caller. *)
Record world : Type := {
  self : StreamLDA;
  heap : gmap loc (list string)
}.

(** A computation that may mutate the world and may raise; what was
    mutated before the exception stays mutated. *)
Definition M (A : Type) : Type := world → result A * world.

Definition ret {A} (a : A) : M A := fun w => (Ok a, w).

Definition bind {A B} (c : M A) (k : A → M B) : M B :=
  fun w => match c w with
           | (Ok a, w') => k a w'
           | (Raise e, w') => (Raise e, w')
           end.

Definition lift {A} (r : result A) : M A := fun w => (r, w).

Definition get_self : M StreamLDA := fun w => (Ok (self w), w).

Definition modify_self (f : StreamLDA → StreamLDA) : M unit :=
  fun w => (Ok tt, {| self := f (self w); heap := heap w |}).

(** The items of the list object at [l]; the references the program
    holds are live, a dangling one reads as the empty list. *)
Definition heap_get (l : loc) : M (list string) :=
  fun w => (Ok (default [] (heap w !! l)), w).

Definition heap_set (l : loc) (v : list string) : M unit :=
  fun w => (Ok tt, {| self := self w; heap := <[l := v]> (heap w) |}).

(** [[s,]]: a new list object, at a location no one else holds. *)
Definition alloc (v : list string) : M loc :=
  fun w => let l := fresh (dom (heap w)) in
           (Ok l, {| self := self w; heap := <[l := v]> (heap w) |}).

End Model.

Declare Scope st_scope.
Delimit Scope st_scope with st.
Notation "x <- c ;; k" := (bind c (fun x => k))
  (at level 100, c at next level, right associativity) : st_scope.

Arguments StreamLDA dw : clear implicits.
Arguments world dw : clear implicits.
Arguments M dw A : clear implicits.

(** ** The methods of [StreamLDA] *)

Section Methods.

Context {dw : Type} `{!DirichletWords dw}.

(** [scipy.special.psi]. *)
Variable psi : R → R.

(** Python's [pow] on a base that is not positive: a ValueError, a
    ZeroDivisionError or a number, depending on the exponent. *)
Variable pow_nonpos : R → R → result R.

(** [scipy.special.gammaln]. *)
Variable gammaln : R → R.

(** Lines 306-309 of [approx_bound] subtract, take the log-gamma of,
    take the length of and sum the store object itself; what that
    yields is for the class of the store to say: the sum of the three
    terms, or the exception. *)
Variable store_terms : StreamLDA dw → result R.

(** *** __init__ (lines 44-78) *)

Definition __init__ (K : Z) (alpha eta tau0 kappa : R) : result (StreamLDA dw) :=
  let lambda := dw_new K in
  let Elogbeta := dw_as_matrix lambda in
  Ok {| _K := K; _alpha := alpha; _eta := eta; _tau0 := (tau0 + 1)%R;
        _kappa := kappa; _D := 0; _batches_to_date := 0;
        _lambda := lambda; _Elogbeta := Elogbeta;
        _expElogbeta := map (map exp) Elogbeta; _rhot := None |}.

(** *** parse_new_docs (lines 81-135); the [print] of line 114 is
    left out *)

(** [new_docs[d] = f(new_docs[d])] on the list object at [l]. *)
Definition rewrite_item (l : loc) (d : nat) (f : string → string) : M dw unit :=
  (docs <- heap_get l ;;
   s <- lift (item docs d) ;;
   heap_set l (<[d := f s]> docs))%st.

(** Lines 123-127: [doc_counts] is a dict from word id to count. *)
Fixpoint count_words (words : list string) (doc_counts : gmap nat nat)
  : M dw (gmap nat nat) :=
  match words with
  | [] => ret doc_counts
  | word :: words' =>
      (self <- get_self ;;
       let '(wordindex, lambda) := dw_index word (_lambda self) in
       _ <- modify_self (set_lambda lambda) ;;
       count_words words'
         (<[wordindex := (default 0 (doc_counts !! wordindex) + 1)%nat]> doc_counts))%st
  end.

(** Lines 113-133, for the documents numbered [ds]. *)
Fixpoint parse_loop (l : loc) (ds : list nat) (wordids wordcts : list (list nat))
  : M dw (list (list nat) * list (list nat)) :=
  match ds with
  | [] => ret (wordids, wordcts)
  | d :: ds' =>
      (_ <- rewrite_item l d lower ;;
       _ <- rewrite_item l d sub_hyphen ;;
       _ <- rewrite_item l d sub_non_alpha ;;
       _ <- rewrite_item l d sub_spaces ;;
       docs <- heap_get l ;;
       s <- lift (item docs d) ;;
       doc_counts <- count_words (split s) ∅ ;;
       parse_loop l ds'
         (wordids ++ [(map_to_list doc_counts).*1])
         (wordcts ++ [(map_to_list doc_counts).*2]))%st
  end.

(** [if type(docs) == str: docs = [docs,]] *)
Definition as_list (docs : docs_arg) : M dw loc :=
  match docs with
  | DocStr s => alloc [s]
  | DocList l => ret l
  end.

Definition parse_new_docs (new_docs : docs_arg)
  : M dw (list (list nat) * list (list nat)) :=
  (l <- as_list new_docs ;;
   docs <- heap_get l ;;
   let D := length docs in
   _ <- modify_self (fun s => set_D (_D s + Z.of_nat D) s) ;;
   parse_loop l (seq 0 D) [] [])%st.

(** *** do_e_step (lines 137-215) *)

(** [1e-100] *)
Definition eps : R := (/ 10 ^ 100)%R.

(** [n.dot(expElogthetad, expElogbetad) + 1e-100] (lines 182, 195) *)
Definition compute_phinorm (expElogthetad : vec) (expElogbetad : mat) (ncols : nat)
  : result vec :=
  (v <- dot_vm expElogthetad expElogbetad ncols ;;
   Ok (map (fun x => (x + eps)%R) v))%py.

(** Lines 191-192:
    [self._alpha + expElogthetad * n.dot(cts / phinorm, expElogbetad.T)] *)
Definition gamma_update (alpha : R) (expElogthetad : vec) (cts : list nat)
  (phinorm : vec) (expElogbetad : mat) : result vec :=
  (q <- broadcast Rdiv (map INR cts) phinorm ;;
   s <- dot_vmT q expElogbetad ;;
   p <- broadcast Rmult expElogthetad s ;;
   Ok (map (Rplus alpha) p))%py.

(** The variables the inner loop updates. *)
Record doc_vars : Type := {
  gammad : vec;
  Elogthetad : vec;
  expElogthetad : vec;
  phinorm : vec
}.

(** One pass through lines 186-197: the new variables and
    [meanchange]. *)
Definition refine (alpha : R) (cts : list nat) (expElogbetad : mat) (ncols : nat)
  (v : doc_vars) : result (doc_vars * R) :=
  (let lastgamma := gammad v in
   gammad' <- gamma_update alpha (expElogthetad v) cts (phinorm v) expElogbetad ;;
   E <- dirichlet_expectation psi (Arr1 gammad') ;;
   Elogthetad' <- as_vec E ;;
   let expElogthetad' := map exp Elogthetad' in
   phinorm' <- compute_phinorm expElogthetad' expElogbetad ncols ;;
   change <- broadcast Rminus gammad' lastgamma ;;
   let meanchange := mean (map Rabs change) in
   Ok ({| gammad := gammad'; Elogthetad := Elogthetad';
          expElogthetad := expElogthetad'; phinorm := phinorm' |},
       meanchange))%py.

(** What a run of the loop of lines 185-199 did: how many times the
    body was entered, the [meanchange] each completed pass computed,
    and the variables at the exit (or the exception). *)
Record loop_run : Type := {
  passes : nat;
  changes : list R;
  outcome : result doc_vars
}.

(** [for it in range(0, 100): ... if (meanchange < meanchangethresh):
    break], for [it] ranging over [its]. *)
Fixpoint fixed_point (its : list nat) (step : doc_vars → result (doc_vars * R))
  (v : doc_vars) : loop_run :=
  match its with
  | [] => {| passes := 0; changes := []; outcome := Ok v |}
  | it :: its' =>
      match step v with
      | Raise e => {| passes := 1; changes := []; outcome := Raise e |}
      | Ok (v', meanchange) =>
          if Rlt_dec meanchange meanchangethresh
          then {| passes := 1; changes := [meanchange]; outcome := Ok v' |}
          else let r := fixed_point its' step v' in
               {| passes := S (passes r); changes := meanchange :: changes r;
                  outcome := outcome r |}
      end
  end.

(** Lines 174-199 for one document: the slices, the first [phinorm]
    and the loop. *)
Definition document_fixed_point (alpha : R) (expElogbeta : mat) (ids cts : list nat)
  (gamma_d Elogtheta_d expElogtheta_d : vec) : result loop_run :=
  (expElogbetad <- take_cols expElogbeta ids ;;
   phinorm0 <- compute_phinorm expElogtheta_d expElogbetad (length ids) ;;
   Ok (fixed_point (seq 0 100)
         (refine alpha cts expElogbetad (length ids))
         {| gammad := gamma_d; Elogthetad := Elogtheta_d;
            expElogthetad := expElogtheta_d; phinorm := phinorm0 |}))%py.

(** Lines 210-213, for the topics the iteration of line 210 yields. *)
Fixpoint topic_loop (lambda_stats : mat) (topics : list pyval) (new_lambda : dw)
  : result dw :=
  match topics with
  | [] => Ok new_lambda
  | topic :: topics' =>
      (word <- load_global "word" ;;
       stats_wk <- index2 lambda_stats topic word ;;
       w <- as_int word ;;
       t <- as_int topic ;;
       topic_loop lambda_stats topics' (dw_update_counts w t stats_wk new_lambda))%py
  end.

(** Lines 209-213: [for wordid, ct in zip(ids, cts): for topic in
    self._K: ...]. *)
Fixpoint stats_loop (K : pyval) (lambda_stats : mat) (pairs : list (nat * nat))
  (new_lambda : dw) : result dw :=
  match pairs with
  | [] => Ok new_lambda
  | (wordid, ct) :: pairs' =>
      (topics <- py_iter K ;;
       new_lambda' <- topic_loop lambda_stats topics new_lambda ;;
       stats_loop K lambda_stats pairs' new_lambda')%py
  end.

(** Lines 208-213: the statistics of one document. *)
Definition accumulate (self : StreamLDA dw) (expElogthetad : vec) (ids cts : list nat)
  (phinorm : vec) (new_lambda : dw) : result dw :=
  (q <- broadcast Rdiv (map INR cts) phinorm ;;
   lambda_stats <- mul2 (outer expElogthetad q) (_expElogbeta self) ;;
   stats_loop (PyInt (_K self)) lambda_stats (zip ids cts) new_lambda)%py.

(** [gamma[d, :] = row] (line 200): the row must have the length of
    the one it replaces, or a single entry, which is then repeated. *)
Definition assign_row (gamma : mat) (d : nat) (row : vec) : result mat :=
  (old <- item gamma d ;;
   if (length row =? length old)%nat then Ok (<[d := row]> gamma)
   else if (length row =? 1)%nat
        then Ok (<[d := map (fun _ => hd 0%R row) old]> gamma)
        else Raise ValueError)%py.

(** Lines 172-213 for document [d]. *)
Definition e_step_document (self : StreamLDA dw) (wordids wordcts : list (list nat))
  (Elogtheta expElogtheta : mat) (d : nat) (acc : mat * dw) : result (mat * dw) :=
  (let '(gamma, new_lambda) := acc in
   ids <- item wordids d ;;
   cts <- item wordcts d ;;
   gamma_d <- item gamma d ;;
   Elogtheta_d <- item Elogtheta d ;;
   expElogtheta_d <- item expElogtheta d ;;
   run <- document_fixed_point (_alpha self) (_expElogbeta self) ids cts
            gamma_d Elogtheta_d expElogtheta_d ;;
   v <- outcome run ;;
   gamma' <- assign_row gamma d (gammad v) ;;
   new_lambda' <- accumulate self (expElogthetad v) ids cts (phinorm v) new_lambda ;;
   Ok (gamma', new_lambda'))%py.

Fixpoint e_step_loop (self : StreamLDA dw) (wordids wordcts : list (list nat))
  (Elogtheta expElogtheta : mat) (ds : list nat) (acc : mat * dw)
  : result (mat * dw) :=
  match ds with
  | [] => Ok acc
  | d :: ds' =>
      (acc' <- e_step_document self wordids wordcts Elogtheta expElogtheta d acc ;;
       e_step_loop self wordids wordcts Elogtheta expElogtheta ds' acc')%py
  end.

(** [1*n.random.gamma(100., 1./100., (batchD, self._K))]: the draws of
    the generator seeded at line 24 are the argument [draw]; a
    negative dimension raises ValueError. *)
Definition random_gamma (draw : nat → nat → R) (batchD : nat) (K : Z) : result mat :=
  if (K <? 0)%Z then Raise ValueError
  else Ok (map (fun d => map (draw d) (seq 0 (Z.to_nat K))) (seq 0 batchD)).

Definition as_mat (a : ndarray) : result mat :=
  match a with
  | Arr2 m => Ok m
  | Arr1 _ => Raise TypeError
  end.

(** [c(K)] for the value [c] a global name is bound to. *)
Definition instantiate (c : pyval) (K : Z) : result dw :=
  match c with
  | PyClass name =>
      if String.eqb name "DirichletWords" then Ok (dw_new K) else Raise TypeError
  | _ => Raise TypeError
  end.

Definition do_e_step (draw : nat → nat → R) (docs : docs_arg) : M dw (mat * dw) :=
  (l <- as_list docs ;;
   parsed <- parse_new_docs (DocList l) ;;
   let '(wordids, wordcts) := parsed in
   ds <- heap_get l ;;
   let batchD := length ds in
   self <- get_self ;;
   gamma <- lift (random_gamma draw batchD (_K self)) ;;
   E <- lift (dirichlet_expectation psi (Arr2 gamma)) ;;
   Elogtheta <- lift (as_mat E) ;;
   let expElogtheta := map (map exp) Elogtheta in
   cls <- lift (load_global "DirichetWords") ;;
   new_lambda <- lift (instantiate cls (_K self)) ;;
   lift (e_step_loop self wordids wordcts Elogtheta expElogtheta
           (seq 0 batchD) (gamma, new_lambda)))%st.

(** *** approx_bound (lines 260-311) *)

(** [len(docs)] *)
Definition len_docs (docs : docs_arg) : M dw nat :=
  match docs with
  | DocStr s => ret (String.length s)
  | DocList l => (ds <- heap_get l ;; ret (length ds))%st
  end.

(** [max(temp)]: the built-in on a sequence; an empty one raises
    ValueError. *)
Fixpoint py_max (v : vec) : result R :=
  match v with
  | [] => Raise ValueError
  | x :: v' =>
      match v' with
      | [] => Ok x
      | _ => (m <- py_max v' ;; Ok (Rmax x m))%py
      end
  end.

(** Lines 292-294 for the word [id] of document [d]: the logarithm of
    the sum over topics of exp(Elogtheta[d, k] + Elogbeta[k, id]),
    computed after subtracting the maximum. *)
Definition word_phinorm (self : StreamLDA dw) (Elogtheta : mat) (d id : nat)
  : result R :=
  (Elogtheta_d <- item Elogtheta d ;;
   column <- mapR (fun row : vec => item row id) (_Elogbeta self) ;;
   temp <- broadcast Rplus Elogtheta_d column ;;
   tmax <- py_max temp ;;
   Ok (ln (vsum (map (fun t => exp (t - tmax)) temp)) + tmax)%R)%py.

(** Lines 287-295 for document [d]: [n.sum(cts * phinorm)]. *)
Definition document_score (self : StreamLDA dw) (wordids wordcts : list (list nat))
  (gamma Elogtheta : mat) (d : nat) : result R :=
  (gammad <- item gamma d ;;
   ids <- item wordids d ;;
   cts <- item wordcts d ;;
   phinorm <- mapR (word_phinorm self Elogtheta d) ids ;;
   weighted <- broadcast Rmult (map INR cts) phinorm ;;
   Ok (vsum weighted))%py.

(** Lines 286-295. *)
Fixpoint likelihood_loop (self : StreamLDA dw) (wordids wordcts : list (list nat))
  (gamma Elogtheta : mat) (ds : list nat) (score : R) : result R :=
  match ds with
  | [] => Ok score
  | d :: ds' =>
      (x <- document_score self wordids wordcts gamma Elogtheta d ;;
       likelihood_loop self wordids wordcts gamma Elogtheta ds' (score + x)%R)%py
  end.

(** Lines 281-309: the score of the parsed batch. Over the reals the
    quotient of line 303 by an empty batch is the one the reals give,
    where numpy yields an infinity or a nan. *)
Definition bound_score (self : StreamLDA dw) (wordids wordcts : list (list nat))
  (batchD : nat) (gamma : mat) : result R :=
  (E <- dirichlet_expectation psi (Arr2 gamma) ;;
   Elogtheta <- as_mat E ;;
   score <- likelihood_loop self wordids wordcts gamma Elogtheta (seq 0 batchD) 0%R ;;
   prior <- mul2 (map (map (fun g => (_alpha self - g)%R)) gamma) Elogtheta ;;
   let score := (score + np.sum (Arr2 prior))%R in
   let score :=
     (score + np.sum (Arr2 (map (map (fun g => gammaln g - gammaln (_alpha self))) gamma)))%R in
   let score :=
     (score + vsum (map (fun row => gammaln (_alpha self * IZR (_K self))
                                    - gammaln (vsum row)) gamma))%R in
   let score := (score * IZR (_D self) / INR batchD)%R in
   terms <- store_terms self ;;
   Ok (score + terms)%R)%py.

(** The test of line 273 compares a type name with ['string']; the
    name of the type of a string is ['str'] and that of a list is
    ['list'], so the branch is never taken. *)
Definition approx_bound (docs : docs_arg) (gamma : mat) : M dw R :=
  (parsed <- parse_new_docs docs ;;
   let '(wordids, wordcts) := parsed in
   batchD <- len_docs docs ;;
   self <- get_self ;;
   lift (bound_score self wordids wordcts batchD gamma))%st.

(** *** update_lambda (lines 217-258) *)

(** [pow(x, y)] *)
Definition py_pow (x y : R) : result R :=
  if Rlt_dec 0 x then Ok (Rpower x y) else pow_nonpos x y.

(** Line 236. *)
Definition rhot_of (self : StreamLDA dw) : result R :=
  py_pow (_tau0 self + IZR (_batches_to_date self)) (- _kappa self).

(** Lines 248-251. *)
Definition housekeeping : M dw unit :=
  (self <- get_self ;;
   let size := Z.of_nat (dw_words_len (_lambda self)) in
   let oversize_by := (size - dw_max_tables (_lambda self))%Z in
   if (0 <? oversize_by)%Z
   then (percent_to_forget <- lift (py2_int_div oversize_by size) ;;
         modify_self (fun s => set_lambda (dw_forget (IZR percent_to_forget) (_lambda s)) s))
   else ret tt)%st.

Definition update_lambda (draw : nat → nat → R) (docs : docs_arg) : M dw (mat * R) :=
  (self <- get_self ;;
   rhot <- lift (rhot_of self) ;;
   _ <- modify_self (set_rhot rhot) ;;
   e <- do_e_step draw docs ;;
   let '(gamma, new_lambda) := e in
   bound <- approx_bound docs gamma ;;
   _ <- modify_self (fun s => set_lambda (dw_merge new_lambda rhot (_lambda s)) s) ;;
   _ <- housekeeping ;;
   _ <- modify_self (fun s => set_Elogbeta (dw_as_matrix (_lambda s)) s) ;;
   _ <- modify_self (fun s => set_expElogbeta (map (map exp) (_Elogbeta s)) s) ;;
   _ <- modify_self (fun s => set_batches_to_date (_batches_to_date s + 1) s) ;;
   ret (gamma, bound))%st.

End Methods.

Arguments doc_vars : clear implicits.
Arguments loop_run : clear implicits.

(** ** What a batch asks of the store *)

(** The store after [index] has been called on [words] in turn. *)
Definition index_words {dw} `{!DirichletWords dw} (words : list string) (lambda : dw) : dw :=
  foldl (fun lam word => (dw_index word lam).2) lambda words.

(** The tokens of a batch, document after document. *)
Definition batch_words (docs : list string) : list string :=
  concat (map (fun s => split (normalize s)) docs).

(** ** A store to run the program on

    Modelled from the spec: the Vocabulary/Topic-Count Store of
    [dirichlet_words.py], which is not among the sources. Per the
    spec it "maps tokens to stable integer ids, accumulates
    per-(word,topic) pseudo-counts, exposes a dense
    expected-log-probability matrix, supports merging a mini-batch's
    new statistics into the running model under a learning-rate
    weight, and supports forgetting (evicting) a fraction of its
    lowest-value entries when it exceeds a capacity bound". The spec
    leaves the capacity of a new store, the smoothing of the matrix,
    the rounding of the evicted fraction and the choice of the evicted
    entries to the store; here a new store holds 50000 entries, the
    matrix is add-one smoothed, the fraction is rounded down and the
    newest entries go first. *)
Record word_store : Type := {
  ws_K : Z;
  ws_words : list string;
  ws_counts : gmap (Z * Z) R;
  ws_max_tables : Z
}.

Definition ws_new (K : Z) : word_store :=
  {| ws_K := K; ws_words := []; ws_counts := ∅; ws_max_tables := 50000 |}.

Definition ws_index (word : string) (s : word_store) : nat * word_store :=
  match list_find (fun x => x = word) (ws_words s) with
  | Some (i, _) => (i, s)
  | None =>
      (length (ws_words s),
       {| ws_K := ws_K s; ws_words := ws_words s ++ [word];
          ws_counts := ws_counts s; ws_max_tables := ws_max_tables s |})
  end.

Definition ws_count (s : word_store) (word topic : Z) : R :=
  default 0%R (ws_counts s !! (word, topic)).

Definition ws_as_matrix (s : word_store) : mat :=
  let ids := map Z.of_nat (seq 0 (length (ws_words s))) in
  map (fun k : nat =>
         let row := map (fun i => ws_count s i (Z.of_nat k)) ids in
         let total := (vsum row + INR (length ids))%R in
         map (fun c => ln ((c + 1) / total)) row)
      (seq 0 (Z.to_nat (ws_K s))).

Definition ws_update_counts (word topic : Z) (stats : R) (s : word_store) : word_store :=
  {| ws_K := ws_K s; ws_words := ws_words s;
     ws_counts := <[(word, topic) := (ws_count s word topic + stats)%R]> (ws_counts s);
     ws_max_tables := ws_max_tables s |}.

Definition blend (rhot : R) (old new : option R) : option R :=
  match old, new with
  | None, None => None
  | _, _ => Some ((1 - rhot) * default 0 old + rhot * default 0 new)%R
  end.

Definition ws_merge (new_lambda : word_store) (rhot : R) (s : word_store) : word_store :=
  {| ws_K := ws_K s;
     ws_words := ws_words s ++
                 List.filter (fun w => negb (bool_decide (w ∈ ws_words s)))
                             (ws_words new_lambda);
     ws_counts := merge (blend rhot) (ws_counts s) (ws_counts new_lambda);
     ws_max_tables := ws_max_tables s |}.

Definition ws_forget (fraction : R) (s : word_store) : word_store :=
  let size := length (ws_words s) in
  let evicted := Z.to_nat (Int_part (fraction * INR size)) in
  let kept := (size - evicted)%nat in
  {| ws_K := ws_K s;
     ws_words := take kept (ws_words s);
     ws_counts := filter (fun e => (e.1.1 < Z.of_nat kept)%Z) (ws_counts s);
     ws_max_tables := ws_max_tables s |}.

#[export] Instance word_store_DirichletWords : DirichletWords word_store := {
  dw_new := ws_new;
  dw_index := ws_index;
  dw_as_matrix := ws_as_matrix;
  dw_update_counts := ws_update_counts;
  dw_merge := ws_merge;
  dw_forget := ws_forget;
  dw_words_len := fun s => length (ws_words s);
  dw_max_tables := ws_max_tables
}.

(** ** Concrete runs *)

(** The theorems hold for every function in the place of digamma and
    of log-gamma; the runs below take their leading terms. *)
Definition psi_run : R → R := ln.

Definition pow_nonpos_run : R → R → result R := fun _ _ => Raise ValueError.

Definition gammaln_run : R → R := fun x => (x * ln x)%R.

(** [word_store] defines no arithmetic, so line 306 raises TypeError
    on it. *)
Definition store_terms_run : StreamLDA word_store → result R :=
  fun _ => Raise TypeError.

Definition draw_run : nat → nat → R := fun _ _ => 1%R.

(** [StreamLDA(2, 0.1, 0.1, 1, 0.5)] *)
Definition model_run : StreamLDA word_store :=
  {| _K := 2; _alpha := 1 / 10; _eta := 1 / 10; _tau0 := 1 + 1; _kappa := 1 / 2;
     _D := 0; _batches_to_date := 0; _lambda := ws_new 2;
     _Elogbeta := ws_as_matrix (ws_new 2);
     _expElogbeta := map (map exp) (ws_as_matrix (ws_new 2)); _rhot := None |}.

(** The caller's list [["Cat dog-cat", "dog dog fish!"]] at location 0. *)
Definition docs_run : list string := ["Cat dog-cat"; "dog dog fish!"]%string.

Definition world_run : world word_store :=
  {| self := model_run; heap := {[ 0%nat := docs_run ]} |}.

(** A store of three words whose capacity is two. *)
Definition full_store : word_store :=
  {| ws_K := 2; ws_words := ["cat"; "dog"; "fish"]%string; ws_counts := ∅;
     ws_max_tables := 2 |}.

Definition full_world : world word_store :=
  {| self := set_lambda full_store model_run; heap := ∅ |}.

(** The world after lines 104-133 on the list object at [l] holding
    [docs]: [_D] has grown by the number of documents, every token
    has been through the store's [index], every item of the list has
    been overwritten with its normalised text. *)
Definition after_parse {dw} `{!DirichletWords dw} (w : world dw) (l : loc)
  (docs : list string) : world dw :=
  {| self := set_D (_D (self w) + Z.of_nat (length docs))
               (set_lambda (index_words (batch_words docs) (_lambda (self w))) (self w));
     heap := <[l := map normalize docs]> (heap w) |}.

(** One topic, one word seen twice, [Elogbeta] = 0, a first gamma of
    1: the variables on entry of the loop, those at its exit, and the
    run. *)
Definition entry_one_topic : doc_vars :=
  {| gammad := [1%R]; Elogthetad := [0%R]; expElogthetad := [1%R];
     phinorm := [(1 + eps)%R] |}.

Definition exit_one_topic : doc_vars :=
  {| gammad := [(1 / 10 + INR 2 / (1 + eps))%R]; Elogthetad := [0%R];
     expElogthetad := [1%R]; phinorm := [(1 + eps)%R] |}.

Definition run_one_topic : loop_run :=
  {| passes := 2;
     changes := [Rabs (1 / 10 + INR 2 / (1 + eps) - 1); 0%R];
     outcome := Ok exit_one_topic |}.

(** ** Predicates of the statements *)

(** No two spaces in a row are left. *)
Fixpoint single_spaced (after_space : bool) (l : list ascii) : bool :=
  match l with
  | [] => true
  | c :: l' =>
      if Ascii.eqb c " " then negb after_space && single_spaced true l'
      else single_spaced false l'
  end.

Definition nonneg (x : R) : Prop := (0 <= x)%R.
Definition positive (x : R) : Prop := (0 < x)%R.

(** The letters a-z, and the letters of either case. *)
Definition is_lower (c : ascii) : bool :=
  let n := nat_of_ascii c in ((97 <=? n) && (n <=? 122))%nat.

Definition is_letter (c : ascii) : bool :=
  let n := nat_of_ascii c in
  ((65 <=? n) && (n <=? 90))%nat || ((97 <=? n) && (n <=? 122))%nat.

(** What lines 122-133 owe a document [s]: as many ids as counts, no
    id twice, no count below one, and counts that add up to the
    number of tokens of the document. *)
Definition counted (s : string) (ids cts : list nat) : Prop :=
  length ids = length cts
  ∧ NoDup ids
  ∧ Forall (fun c => (1 <= c)%nat) cts
  ∧ sum_list cts = length (split (normalize s)).

(** A reference passed as [docs] is a reference to a live list. *)
Definition live_docs {dw} (w : world dw) (docs : docs_arg) : Prop :=
  match docs with
  | DocStr _ => True
  | DocList l => is_Some (heap w !! l)
  end.

(** The world in which the list [[s,]] of lines 105 and 153 has been
    created. *)
Definition with_singleton {dw} (w : world dw) (s : string) : world dw :=
  {| self := self w; heap := <[fresh (dom (heap w)) := [s]]> (heap w) |}.

(** * Properties *)

(** ** dirichlet_expectation *)

Section DigammaFacts.

Variable psi : R → R.

Lemma sub_column_rows (m : mat) :
  sub_column (map (map psi) m) (map psi (map vsum m))
  = map (fun row => map (fun a => (psi a - psi (vsum row))%R) row) m.
Proof.
  unfold sub_column. induction m as [|row m IH]; simpl; [reflexivity|].
  rewrite IH. f_equal. rewrite map_map. reflexivity.
Qed.

(** On a two-dimensional array every row is normalised by its own
    sum, also when there is a single row. *)
Lemma dirichlet_expectation_matrix (m : mat) :
  dirichlet_expectation psi (Arr2 m)
  = Ok (Arr2 (map (fun row => map (fun a => (psi a - psi (vsum row))%R) row) m)).
Proof.
  unfold dirichlet_expectation. simpl len.
  destruct (length m =? 1)%nat eqn:Hlen.
  - apply Nat.eqb_eq in Hlen.
    destruct m as [|row [|row' m]]; simpl in Hlen; try discriminate.
    simpl. rewrite Rplus_0_r, map_map. reflexivity.
  - simpl. rewrite sub_column_rows. reflexivity.
Qed.

(** A one-dimensional array of a single component is normalised by
    that component. *)
Lemma dirichlet_expectation_singleton (a : R) :
  dirichlet_expectation psi (Arr1 [a]) = Ok (Arr1 [0%R]).
Proof.
  unfold dirichlet_expectation. simpl.
  rewrite Rplus_0_r. do 3 f_equal. lra.
Qed.

(** Any other one-dimensional array takes the branch of line 37 and
    has no axis 1 to sum along. *)
Lemma dirichlet_expectation_vector (v : vec) :
  length v ≠ 1%nat → dirichlet_expectation psi (Arr1 v) = Raise ValueError.
Proof.
  intros Hlen. unfold dirichlet_expectation. simpl len.
  destruct (Nat.eqb_spec (length v) 1) as [E|_]; [contradiction|reflexivity].
Qed.

End DigammaFacts.

(** C5. The specification: on every positive input the utility returns
    digamma(alpha_k) minus digamma of the sum, the sum running over
    all components of a vector and over each row of a matrix. The
    code does so for matrices ([dirichlet_expectation_matrix]) but on
    the vector (1, 2) it raises instead of returning: line 35 tests
    the length of the first dimension where it means the number of
    dimensions. *)
Theorem C5_vector_input_raises (psi : R → R) :
  dirichlet_expectation psi (Arr1 [1%R; 2%R]) = Raise ValueError.
Proof. apply dirichlet_expectation_vector. simpl. lia. Qed.

(** ** The statistics loop *)

Section StatsFacts.

Context {dw : Type} `{!DirichletWords dw}.

(** A document without words leaves the accumulator as it is. *)
Lemma stats_loop_nil (K : pyval) (lambda_stats : mat) (new_lambda : dw) :
  stats_loop K lambda_stats [] new_lambda = Ok new_lambda.
Proof. reflexivity. Qed.

(** Whatever [accumulate] returns is the accumulator it was given: no
    call of [update_counts] is ever completed. *)
Lemma accumulate_adds_nothing (self : StreamLDA dw) (e : vec) (ids cts : list nat)
  (phinorm : vec) (new_lambda new_lambda' : dw) :
  accumulate self e ids cts phinorm new_lambda = Ok new_lambda' →
  new_lambda' = new_lambda.
Proof.
  unfold accumulate.
  destruct (broadcast Rdiv (map INR cts) phinorm) as [q|]; simpl; [|discriminate].
  destruct (mul2 (outer e q) (_expElogbeta self)) as [st|]; simpl; [|discriminate].
  destruct (zip ids cts) as [|[wordid ct] pairs]; simpl; [|discriminate].
  congruence.
Qed.

End StatsFacts.

(** C1. The specification: every observed word of every document
    contributes to the statistics once per topic k in 0..K-1. In the
    code the loop over topics is [for topic in self._K] with [_K] an
    int: on the first (word id, count) pair of a document it raises
    TypeError before any call of [update_counts]; so lines 208-213
    either raise or, for a document without words, return the
    accumulator they were given. *)
Theorem C1_no_statistics_are_accumulated {dw : Type} `{!DirichletWords dw}
  (self : StreamLDA dw) (e : vec) (ids cts : list nat) (phinorm : vec)
  (new_lambda : dw) :
  (∀ lambda_stats wordid ct pairs,
     stats_loop (PyInt (_K self)) lambda_stats ((wordid, ct) :: pairs) new_lambda
     = Raise TypeError)
  ∧ match accumulate self e ids cts phinorm new_lambda with
    | Ok new_lambda' => new_lambda' = new_lambda ∧ zip ids cts = []
    | Raise _ => True
    end.
Proof.
  split; [reflexivity|].
  destruct (accumulate self e ids cts phinorm new_lambda) as [new_lambda'|] eqn:Hacc;
    [|exact I].
  split; [eapply accumulate_adds_nothing; exact Hacc|].
  unfold accumulate in Hacc.
  destruct (broadcast Rdiv (map INR cts) phinorm) as [q|]; simpl in Hacc; [|discriminate].
  destruct (mul2 (outer e q) (_expElogbeta self)) as [st|]; simpl in Hacc; [|discriminate].
  destruct (zip ids cts) as [|[wordid ct] pairs]; [reflexivity|discriminate].
Qed.

(** ** Construction *)

(** C7, as amended. The constructor checks nothing: for every K,
    alpha, eta, tau0 and kappa it returns an instance holding K,
    alpha, eta and kappa as given, tau0 + 1, and zero counts. *)
Theorem C7_init_accepts_every_configuration {dw : Type} `{!DirichletWords dw}
  (K : Z) (alpha eta tau0 kappa : R) :
  ∃ self : StreamLDA dw,
    __init__ K alpha eta tau0 kappa = Ok self
    ∧ _K self = K ∧ _alpha self = alpha ∧ _eta self = eta
    ∧ _tau0 self = (tau0 + 1)%R ∧ _kappa self = kappa
    ∧ _D self = 0%Z ∧ _batches_to_date self = 0%Z.
Proof. eexists. split; [reflexivity|]. simpl. tauto. Qed.

(** C7, as stated, fails: K = 0, alpha = 0, eta = -1 and tau0 = -2
    are all in the ranges the specification wants rejected,
    and the constructor returns an instance. *)
Lemma C7_invalid_configuration_accepted :
  (0 <= 0)%Z ∧ (0 <= 0)%R ∧ (-1 <= 0)%R ∧ (-2 <= -1)%R
  ∧ is_raise (__init__ (dw := word_store) 0 0 (-1) (-2) 0) = false.
Proof. repeat split; try lra; try lia. Qed.

(** ** The learning rate *)

Lemma Rpower_base_ge_1 (x y : R) : (1 <= x → 0 <= y → 0 < Rpower x (- y) <= 1)%R.
Proof.
  intros Hx Hy. unfold Rpower. split; [apply exp_pos|].
  rewrite <- exp_0.
  destruct (Req_dec (- y * ln x) 0) as [E|E]; [rewrite E; lra|].
  left. apply exp_increasing.
  assert (0 <= ln x)%R.
  { rewrite <- ln_1. destruct (Req_dec 1 x) as [<-|Hne]; [lra|].
    left. apply ln_increasing; lra. }
  nra.
Qed.

Lemma Rpower_decreasing_in_base (x x' y : R) :
  (0 < x → x < x' → 0 < y → Rpower x' (- y) < Rpower x (- y))%R.
Proof.
  intros Hx Hlt Hy. unfold Rpower. apply exp_increasing.
  assert (ln x < ln x')%R by (apply ln_increasing; lra).
  nra.
Qed.

Section RateFacts.

Context {dw : Type} `{!DirichletWords dw}.
Variable pow_nonpos : R → R → result R.

Lemma rhot_of_positive_base (self : StreamLDA dw) :
  (0 < _tau0 self + IZR (_batches_to_date self))%R →
  rhot_of pow_nonpos self
  = Ok (Rpower (_tau0 self + IZR (_batches_to_date self)) (- _kappa self)).
Proof.
  intros Hpos. unfold rhot_of, py_pow.
  destruct (Rlt_dec 0 _) as [_|Hn]; [reflexivity|contradiction].
Qed.

End RateFacts.

(** ** Housekeeping *)

Section HousekeepingFacts.

Context {dw : Type} `{!DirichletWords dw}.

(** With a capacity of at least one entry, the quotient of line 250
    is the floor of a number in (0, 1): the store is asked to forget
    the fraction 0. *)
Lemma housekeeping_floors_the_fraction (w : world dw) :
  let size := Z.of_nat (dw_words_len (_lambda (self w))) in
  (0 < dw_max_tables (_lambda (self w)) < size)%Z →
  housekeeping w
  = (Ok tt, {| self := set_lambda (dw_forget 0%R (_lambda (self w))) (self w);
               heap := heap w |}).
Proof.
  intros size Hcap. unfold housekeeping, bind, get_self, lift, modify_self.
  fold size.
  destruct (Z.ltb_spec 0 (size - dw_max_tables (_lambda (self w)))) as [_|Hn]; [|lia].
  unfold py2_int_div.
  destruct (Z.eqb_spec size 0) as [E|_]; [lia|].
  rewrite Z.div_small by lia. reflexivity.
Qed.

End HousekeepingFacts.

Lemma Int_part_0 : Int_part 0 = 0%Z.
Proof. change 0%R with (INR 0). apply Int_part_INR. Qed.

(** C6. The specification: when the vocabulary exceeds the capacity, the
    store is asked to forget the fraction (size - capacity) / size
    and ends within capacity. With three words and a capacity of two
    the code asks the store to forget the fraction 0 (the quotient of
    two ints, floored by Python 2) where the specification says 1/3,
    and the
    store still holds three words. *)
Theorem C6_forget_fraction_is_floored :
  ∃ w' : world word_store,
    housekeeping full_world = (Ok tt, w')
    ∧ _lambda (self w') = dw_forget 0%R full_store
    ∧ dw_words_len (_lambda (self w')) = 3%nat
    ∧ dw_max_tables (_lambda (self w')) = 2%Z.
Proof.
  eexists. split.
  - apply housekeeping_floors_the_fraction. simpl. lia.
  - simpl. split; [reflexivity|].
    rewrite Rmult_0_l, Int_part_0. simpl. split; reflexivity.
Qed.

(** ** The fixed-point loop *)

Section LoopFacts.

Variable step : doc_vars → result (doc_vars * R).

Lemma fixed_point_passes (its : list nat) (v : doc_vars) :
  (passes (fixed_point its step v) <= length its)%nat
  ∧ (length (changes (fixed_point its step v)) <= passes (fixed_point its step v))%nat.
Proof.
  revert v. induction its as [|it its IH]; intros v; simpl; [lia|].
  destruct (step v) as [[v' c]|e]; simpl; [|lia].
  destruct (Rlt_dec c meanchangethresh); simpl; [lia|].
  specialize (IH v'). lia.
Qed.

(** A pass whose [meanchange] is below the threshold is the last
    one, and the loop ends normally there. *)
Lemma fixed_point_breaks (its : list nat) (v : doc_vars) (i : nat) (c : R) :
  changes (fixed_point its step v) !! i = Some c →
  (c < meanchangethresh)%R →
  passes (fixed_point its step v) = S i
  ∧ length (changes (fixed_point its step v)) = S i
  ∧ ∃ v', outcome (fixed_point its step v) = Ok v'.
Proof.
  revert v i. induction its as [|it its IH]; intros v i; simpl; [discriminate|].
  destruct (step v) as [[v' c']|e]; simpl; [|discriminate].
  destruct (Rlt_dec c' meanchangethresh) as [Hlt|Hge]; simpl.
  - destruct i as [|i]; simpl; [|discriminate].
    intros _ _. eauto.
  - destruct i as [|i]; simpl.
    + intros [= ->] Hc. contradiction.
    + intros Hi Hc. destruct (IH v' i Hi Hc) as (-> & -> & Hv). eauto.
Qed.

(** A loop that ends normally before its last pass ended on a
    [meanchange] below the threshold. *)
Lemma fixed_point_early_exit (its : list nat) (v v' : doc_vars) :
  outcome (fixed_point its step v) = Ok v' →
  (passes (fixed_point its step v) < length its)%nat →
  ∃ c, changes (fixed_point its step v) !! (passes (fixed_point its step v) - 1)%nat = Some c
       ∧ (c < meanchangethresh)%R.
Proof.
  revert v. induction its as [|it its IH]; intros v; simpl; [lia|].
  destruct (step v) as [[v1 c]|e]; simpl; [|discriminate].
  destruct (Rlt_dec c meanchangethresh) as [Hlt|Hge]; simpl.
  - intros _ _. exists c. split; [reflexivity|exact Hlt].
  - intros Hout Hlen.
    destruct (IH v1 Hout ltac:(lia)) as (c0 & Hc0 & Hlt).
    exists c0. split; [|exact Hlt].
    rewrite Nat.sub_0_r.
    destruct (passes (fixed_point its step v1)) as [|p] eqn:Hp.
    + destruct its; simpl in *; [lia|].
      destruct (step v1) as [[? ?]|]; simpl in *; [|discriminate].
      destruct (Rlt_dec _ _); simpl in *; discriminate.
    + simpl in Hc0. rewrite Nat.sub_0_r in Hc0. exact Hc0.
Qed.

End LoopFacts.

(** C9. From any entry state the loop of lines 185-199 enters its
    body at most 100 times; a pass whose mean absolute change of
    [gammad] is below 0.001 is the last one (the loop ends there,
    normally); and a loop that ends normally in fewer than 100 passes
    ended on such a pass. *)
Theorem C9_loop_cap_and_early_exit (psi : R → R) (alpha : R) (cts : list nat)
  (expElogbetad : mat) (ncols : nat) (v : doc_vars) :
  let run := fixed_point (seq 0 100) (refine psi alpha cts expElogbetad ncols) v in
  (passes run <= 100)%nat
  ∧ (∀ i c, changes run !! i = Some c → (c < meanchangethresh)%R →
            passes run = S i ∧ ∃ v', outcome run = Ok v')
  ∧ (∀ v', outcome run = Ok v' → (passes run < 100)%nat →
           ∃ c, changes run !! (passes run - 1)%nat = Some c
                ∧ (c < meanchangethresh)%R).
Proof.
  intros run. repeat split.
  - pose proof (fixed_point_passes (refine psi alpha cts expElogbetad ncols)
                  (seq 0 100) v) as [Hp _].
    rewrite length_seq in Hp. exact Hp.
  - destruct (fixed_point_breaks _ _ _ _ _ H H0) as (Hp & _ & _). exact Hp.
  - destruct (fixed_point_breaks _ _ _ _ _ H H0) as (_ & _ & Hv). exact Hv.
  - intros v' Hout Hlt.
    apply (fixed_point_early_exit _ _ _ _ Hout).
    rewrite length_seq. exact Hlt.
Qed.

(** ** The gamma update never goes below the prior *)

Lemma mapR_Forall2 {A B} (f : A → result B) (l : list A) (l' : list B) :
  mapR f l = Ok l' → Forall2 (fun x y => f x = Ok y) l l'.
Proof.
  revert l'. induction l as [|x l IH]; intros l'; simpl.
  - intros [= <-]. constructor.
  - destruct (f x) as [y|] eqn:Hx; simpl; [|discriminate].
    destruct (mapR f l) as [ys|]; simpl; [|discriminate].
    intros [= <-]. constructor; [exact Hx|]. apply IH. reflexivity.
Qed.

Lemma take_cols_Forall (P : R → Prop) (m m' : mat) (ids : list nat) :
  take_cols m ids = Ok m' → Forall (Forall P) m → Forall (Forall P) m'.
Proof.
  intros Hm HP. apply mapR_Forall2 in Hm.
  induction Hm as [|row row' m m' Hrow _ IH]; [constructor|].
  inversion HP as [|? ? HProw HPm]; subst.
  constructor; [|apply IH; exact HPm].
  apply mapR_Forall2 in Hrow. clear -Hrow HProw.
  induction Hrow as [|j x ids xs Hj _ IH]; constructor; [|exact IH].
  destruct (row !! j) as [y|] eqn:Hy; [|discriminate].
  injection Hj as <-.
  rewrite Forall_forall in HProw. apply HProw.
  eapply list_elem_of_lookup_2. exact Hy.
Qed.

Lemma vsum_nonneg (v : vec) : Forall (fun x => 0 <= x)%R v → (0 <= vsum v)%R.
Proof.
  induction 1 as [|x v Hx _ IH]; unfold vsum in *; simpl; lra.
Qed.

Lemma zip_with_Forall (P Q S : R → Prop) (f : R → R → R) (a b : vec) :
  (∀ x y, P x → Q y → S (f x y)) →
  Forall P a → Forall Q b → Forall S (zip_with f a b).
Proof.
  intros Hf Ha. revert b. induction Ha as [|x a Hx _ IH]; intros b Hb; simpl.
  - constructor.
  - destruct Hb as [|y b Hy Hb]; constructor; [apply Hf; assumption|].
    apply IH. exact Hb.
Qed.

Lemma map_Forall (P Q : R → Prop) (f : R → R) (v : vec) :
  (∀ x, P x → Q (f x)) → Forall P v → Forall Q (map f v).
Proof. intros Hf. induction 1; simpl; constructor; auto. Qed.

Lemma broadcast_Forall (P Q S : R → Prop) (f : R → R → R) (a b c : vec) :
  (∀ x y, P x → Q y → S (f x y)) →
  Forall P a → Forall Q b → broadcast f a b = Ok c → Forall S c.
Proof.
  intros Hf Ha Hb. unfold broadcast.
  destruct (length a =? length b)%nat.
  { intros [= <-]. eapply zip_with_Forall; eauto. }
  destruct (Nat.eqb_spec (length a) 1) as [Ea|_].
  { intros [= <-]. destruct a as [|x [|? ?]]; try discriminate.
    inversion Ha; subst. simpl. eapply map_Forall; [|exact Hb].
    intros y Hy. apply Hf; assumption. }
  destruct (Nat.eqb_spec (length b) 1) as [Eb|_]; [|discriminate].
  intros [= <-]. destruct b as [|y [|? ?]]; try discriminate.
  inversion Hb; subst. simpl. eapply map_Forall; [|exact Ha].
  intros x Hx. apply Hf; assumption.
Qed.

Lemma positive_nonneg (v : vec) : Forall positive v → Forall nonneg v.
Proof.
  intros Hv. eapply Forall_impl; [exact Hv|].
  unfold positive, nonneg. intros; lra.
Qed.

Lemma inner_nonneg (a b : vec) :
  Forall nonneg a → Forall nonneg b → (0 <= vsum (zip_with Rmult a b))%R.
Proof.
  intros Ha Hb. apply vsum_nonneg.
  eapply (zip_with_Forall nonneg nonneg); [|exact Ha|exact Hb].
  unfold nonneg. intros; nra.
Qed.

Lemma column_nonneg (m : mat) (j : nat) :
  Forall (Forall nonneg) m → Forall nonneg (column m j).
Proof.
  unfold column. induction 1 as [|row m Hrow _ IH]; simpl; constructor; [|exact IH].
  destruct (nth_in_or_default j row 0%R) as [Hin | Heq]; [|rewrite Heq; unfold nonneg; lra].
  rewrite Forall_forall in Hrow. apply Hrow.
  apply list_elem_of_In. exact Hin.
Qed.

Lemma exp_matrix_positive (m : mat) : Forall (Forall positive) (map (map exp) m).
Proof.
  induction m as [|row m IH]; simpl; constructor; [|exact IH].
  induction row; simpl; constructor; [apply exp_pos|assumption].
Qed.

Lemma exp_vector_positive (v : vec) : Forall positive (map exp v).
Proof. induction v; simpl; constructor; [apply exp_pos|assumption]. Qed.

Lemma eps_positive : (0 < eps)%R.
Proof. unfold eps. apply Rinv_0_lt_compat. apply pow_lt. lra. Qed.

Lemma compute_phinorm_positive (e : vec) (B : mat) (n : nat) (p : vec) :
  Forall nonneg e → Forall (Forall nonneg) B →
  compute_phinorm e B n = Ok p → Forall positive p.
Proof.
  intros He HB. unfold compute_phinorm, dot_vm.
  destruct (length e =? length B)%nat; simpl; [|discriminate].
  intros [= <-]. pose proof eps_positive as Heps.
  induction (seq 0 n) as [|j js IH]; simpl; constructor; [|exact IH].
  pose proof (inner_nonneg e (column B j) He (column_nonneg B j HB)).
  unfold positive. lra.
Qed.

Lemma dot_vmT_nonneg (q : vec) (B : mat) (s : vec) :
  Forall nonneg q → Forall (Forall nonneg) B →
  dot_vmT q B = Ok s → Forall nonneg s.
Proof.
  intros Hq HB. unfold dot_vmT.
  destruct (forallb (fun row : vec => (length row =? length q)%nat) B);
    [|discriminate].
  intros [= <-].
  induction HB as [|row B Hrow _ IH]; simpl; constructor; [|exact IH].
  apply inner_nonneg; assumption.
Qed.

Lemma counts_nonneg (cts : list nat) : Forall nonneg (map INR cts).
Proof. induction cts; simpl; constructor; [apply pos_INR|assumption]. Qed.

(** Lines 191-192: what is added to alpha is a product of
    non-negative numbers. *)
Lemma gamma_update_at_least_alpha (alpha : R) (e : vec) (cts : list nat)
  (p : vec) (B : mat) (g : vec) :
  Forall nonneg e → Forall positive p → Forall (Forall nonneg) B →
  gamma_update alpha e cts p B = Ok g → Forall (fun x => alpha <= x)%R g.
Proof.
  intros He Hp HB. unfold gamma_update.
  destruct (broadcast Rdiv (map INR cts) p) as [q|] eqn:Hq; simpl; [|discriminate].
  destruct (dot_vmT q B) as [s|] eqn:Hs; simpl; [|discriminate].
  destruct (broadcast Rmult e s) as [t|] eqn:Ht; simpl; [|discriminate].
  intros [= <-].
  assert (Hq' : Forall nonneg q).
  { eapply (broadcast_Forall nonneg positive); [|apply counts_nonneg|exact Hp|exact Hq].
    unfold nonneg, positive. intros x y Hx Hy.
    apply Rmult_le_pos; [exact Hx|]. left. apply Rinv_0_lt_compat. exact Hy. }
  assert (Hs' : Forall nonneg s) by (eapply dot_vmT_nonneg; eauto).
  assert (Ht' : Forall nonneg t).
  { eapply (broadcast_Forall nonneg nonneg); [|exact He|exact Hs'|exact Ht].
    unfold nonneg. intros; nra. }
  eapply map_Forall; [|exact Ht']. unfold nonneg. intros; lra.
Qed.

Section GammaFacts.

Variable psi : R → R.

(** One pass of the loop body keeps what the next pass relies on,
    and leaves every component of [gammad] at or above alpha. *)
Lemma refine_keeps_floor (alpha : R) (cts : list nat) (B : mat) (n : nat)
  (v v' : doc_vars) (c : R) :
  Forall (Forall nonneg) B →
  Forall nonneg (expElogthetad v) → Forall positive (phinorm v) →
  refine psi alpha cts B n v = Ok (v', c) →
  Forall (fun x => alpha <= x)%R (gammad v')
  ∧ Forall nonneg (expElogthetad v') ∧ Forall positive (phinorm v').
Proof.
  intros HB He Hp. unfold refine.
  destruct (gamma_update alpha (expElogthetad v) cts (phinorm v) B) as [g|] eqn:Hg;
    simpl; [|discriminate].
  destruct (dirichlet_expectation psi (Arr1 g)) as [E|]; simpl; [|discriminate].
  destruct (as_vec E) as [El|]; simpl; [|discriminate].
  destruct (compute_phinorm (map exp El) B n) as [p|] eqn:Hp'; simpl; [|discriminate].
  destruct (broadcast Rminus g (gammad v)) as [ch|]; simpl; [|discriminate].
  intros [= <- <-]. simpl. split; [|split].
  - eapply gamma_update_at_least_alpha; eauto.
  - apply positive_nonneg, exp_vector_positive.
  - eapply compute_phinorm_positive; [| |exact Hp']; [|exact HB].
    apply positive_nonneg, exp_vector_positive.
Qed.

Lemma fixed_point_keeps_floor (alpha : R) (cts : list nat) (B : mat) (n : nat)
  (its : list nat) (v v' : doc_vars) :
  Forall (Forall nonneg) B →
  Forall nonneg (expElogthetad v) → Forall positive (phinorm v) →
  outcome (fixed_point its (refine psi alpha cts B n) v) = Ok v' →
  (its = [] ∧ v' = v) ∨ Forall (fun x => alpha <= x)%R (gammad v').
Proof.
  intros HB. revert v. induction its as [|it its IH]; intros v He Hp; simpl.
  - intros [= <-]. left. split; reflexivity.
  - destruct (refine psi alpha cts B n v) as [[v1 c]|] eqn:Hstep; simpl; [|discriminate].
    destruct (refine_keeps_floor _ _ _ _ _ _ _ HB He Hp Hstep) as (Hg1 & He1 & Hp1).
    destruct (Rlt_dec c meanchangethresh); simpl.
    + intros [= <-]. right. exact Hg1.
    + intros Hout. destruct (IH v1 He1 Hp1 Hout) as [[_ ->]|Hg]; right; assumption.
Qed.

End GammaFacts.

(** C2. With the cached [expElogbeta] and the row of [expElogtheta]
    being exponentials, as lines 78/255 and 162 make them, every
    component of the [gammad] with which the loop of a document ends,
    the row that line 200 stores into the returned [gamma], is at
    least alpha. *)
Theorem C2_gamma_row_at_least_alpha (psi : R → R) (alpha : R) (Elogbeta : mat)
  (ids cts : list nat) (gamma_d Elogtheta_d : vec) (run : loop_run) (v : doc_vars) :
  document_fixed_point psi alpha (map (map exp) Elogbeta) ids cts
    gamma_d Elogtheta_d (map exp Elogtheta_d) = Ok run →
  outcome run = Ok v →
  Forall (fun g => alpha <= g)%R (gammad v).
Proof.
  unfold document_fixed_point.
  assert (Hits : seq 0 100 ≠ []) by (rewrite <- length_zero_iff_nil, length_seq; lia).
  revert Hits. generalize (seq 0 100) as its. intros its Hits.
  destruct (take_cols (map (map exp) Elogbeta) ids) as [B|] eqn:HB;
    cbn [rbind]; [|discriminate].
  destruct (compute_phinorm (map exp Elogtheta_d) B (length ids)) as [p|] eqn:Hp;
    cbn [rbind]; [|discriminate].
  intros [= <-] Hout.
  assert (HBpos : Forall (Forall nonneg) B).
  { eapply Forall_impl; [eapply take_cols_Forall; [exact HB|apply exp_matrix_positive]|].
    apply positive_nonneg. }
  assert (He : Forall nonneg (map exp Elogtheta_d))
    by apply positive_nonneg, exp_vector_positive.
  apply fixed_point_keeps_floor in Hout; cbn [expElogthetad phinorm]; auto.
  - destruct Hout as [[Hnil _]|Hg]; [contradiction|exact Hg].
  - eapply compute_phinorm_positive; eauto.
Qed.

(** ** A run of the loop *)

Lemma eps_lt_1 : (eps < 1)%R.
Proof.
  unfold eps. rewrite <- Rinv_1. apply Rinv_lt_contravar.
  - rewrite Rmult_1_l. apply pow_lt. lra.
  - apply Rlt_pow_R1; [lra|lia].
Qed.

Section OneTopic.
Variable psi : R → R.

Lemma refine_one_topic (alpha g : R) (c : nat) (El : vec) :
  refine psi alpha [c] [[1%R]] 1
    {| gammad := [g]; Elogthetad := El; expElogthetad := [1%R];
       phinorm := [(1 + eps)%R] |}
  = Ok ({| gammad := [(alpha + INR c / (1 + eps))%R]; Elogthetad := [0%R];
           expElogthetad := [1%R]; phinorm := [(1 + eps)%R] |},
        Rabs (alpha + INR c / (1 + eps) - g)).
Proof.
  unfold refine, gamma_update.
  cbn -[INR dirichlet_expectation compute_phinorm mean].
  replace (alpha + 1 * (INR c / (1 + eps) * 1 + 0))%R
    with (alpha + INR c / (1 + eps))%R by lra.
  rewrite dirichlet_expectation_singleton.
  cbn -[INR compute_phinorm mean]. rewrite exp_0.
  unfold compute_phinorm, mean. cbn -[INR].
  replace (1 * 1 + 0 + eps)%R with (1 + eps)%R by lra.
  do 2 f_equal. change (INR 1) with 1%R. lra.
Qed.

Lemma fixed_point_break (step : doc_vars → result (doc_vars * R)) it its v v' c :
  step v = Ok (v', c) → (c < meanchangethresh)%R →
  fixed_point (it :: its) step v
  = {| passes := 1; changes := [c]; outcome := Ok v' |}.
Proof.
  intros Hs Hc. simpl. rewrite Hs.
  destruct (Rlt_dec c meanchangethresh); [reflexivity|contradiction].
Qed.

Lemma fixed_point_continue (step : doc_vars → result (doc_vars * R)) it its v v' c :
  step v = Ok (v', c) → ¬ (c < meanchangethresh)%R →
  fixed_point (it :: its) step v
  = {| passes := S (passes (fixed_point its step v'));
       changes := c :: changes (fixed_point its step v');
       outcome := outcome (fixed_point its step v') |}.
Proof.
  intros Hs Hc. simpl. rewrite Hs.
  destruct (Rlt_dec c meanchangethresh); [contradiction|reflexivity].
Qed.

(** The loop on one topic and one word: a first pass that moves
    gamma by more than the threshold, a second that does not move it,
    and the exit. *)
Lemma one_topic_loop :
  fixed_point (seq 0 100) (refine psi (1 / 10) [2%nat] [[1%R]] 1) entry_one_topic
  = run_one_topic.
Proof.
  pose proof eps_positive as Hp. pose proof eps_lt_1 as Hl.
  assert (H2 : (1 < INR 2 / (1 + eps))%R).
  { change (INR 2) with 2%R. apply Rmult_lt_reg_r with (1 + eps)%R; [lra|].
    unfold Rdiv. rewrite Rmult_assoc, Rinv_l by lra. lra. }
  unfold entry_one_topic, run_one_topic, exit_one_topic.
  change (seq 0 100) with (0%nat :: 1%nat :: seq 2 98).
  rewrite (fixed_point_continue _ _ _ _ _ _ (refine_one_topic _ _ _ _)).
  2:{ unfold meanchangethresh. rewrite Rabs_pos_eq by lra. lra. }
  rewrite (fixed_point_break _ _ _ _ _ _ (refine_one_topic _ _ _ _)).
  2:{ unfold meanchangethresh.
      replace (1 / 10 + INR 2 / (1 + eps) - (1 / 10 + INR 2 / (1 + eps)))%R
        with 0%R by lra.
      rewrite Rabs_R0. lra. }
  cbn [passes changes outcome].
  replace (1 / 10 + INR 2 / (1 + eps) - (1 / 10 + INR 2 / (1 + eps)))%R
    with 0%R by lra.
  rewrite Rabs_R0. reflexivity.
Qed.

Lemma one_topic_run :
  document_fixed_point psi (1 / 10) (map (map exp) [[0%R]]) [0%nat] [2%nat]
    [1%R] [0%R] (map exp [0%R])
  = Ok run_one_topic.
Proof.
  assert (Hcols : take_cols (map (map exp) [[0%R]]) [0%nat] = Ok [[1%R]])
    by (simpl; rewrite exp_0; reflexivity).
  assert (Hphi : compute_phinorm (map exp [0%R]) [[1%R]] 1 = Ok [(1 + eps)%R]).
  { unfold compute_phinorm. simpl. rewrite exp_0. do 3 f_equal. lra. }
  unfold document_fixed_point. rewrite Hcols. cbn [rbind length].
  rewrite Hphi. cbn [rbind]. f_equal.
  change (map exp [0%R]) with [exp 0]. rewrite exp_0.
  apply one_topic_loop.
Qed.

End OneTopic.

(** C2 on the run above: the loop ends on gamma = 0.1 + 2/(1 + 1e-100),
    which is at least alpha = 0.1. *)
Lemma C2_witness :
  document_fixed_point psi_run (1 / 10) (map (map exp) [[0%R]]) [0%nat] [2%nat]
    [1%R] [0%R] (map exp [0%R]) = Ok run_one_topic
  ∧ outcome run_one_topic = Ok exit_one_topic
  ∧ Forall (fun g => 1 / 10 <= g)%R (gammad exit_one_topic).
Proof.
  split; [apply one_topic_run|]. split; [reflexivity|].
  apply (C2_gamma_row_at_least_alpha psi_run (1 / 10) [[0%R]] [0%nat] [2%nat]
           [1%R] [0%R] run_one_topic exit_one_topic).
  - apply one_topic_run.
  - reflexivity.
Defined.

(** C9 on the run above: the second pass computes a mean change of 0,
    so the loop has made exactly two passes. *)
Lemma C9_witness :
  changes run_one_topic !! 1%nat = Some 0%R
  ∧ (0 < meanchangethresh)%R
  ∧ passes run_one_topic = 2%nat.
Proof.
  assert (Hthresh : (0 < meanchangethresh)%R) by (unfold meanchangethresh; lra).
  split; [reflexivity|]. split; [exact Hthresh|].
  pose proof (C9_loop_cap_and_early_exit psi_run (1 / 10) [2%nat] [[1%R]] 1
                entry_one_topic) as Hloop.
  cbv zeta in Hloop. rewrite one_topic_loop in Hloop.
  destruct Hloop as (_ & Hbreak & _).
  destruct (Hbreak 1%nat 0%R eq_refl Hthresh) as [Hpasses _].
  exact Hpasses.
Defined.

(** ** Text normalisation *)

Lemma on_chars_compose (f g : list ascii → list ascii) (s : string) :
  on_chars f (on_chars g s) = on_chars (fun l => f (g l)) s.
Proof. unfold on_chars. rewrite list_ascii_of_string_of_list_ascii. reflexivity. Qed.

Lemma normalize_chars (s : string) :
  list_ascii_of_string (normalize s)
  = collapse false
      (List.filter is_lower_or_space
         (map hyphen_to_space (map lower_char (list_ascii_of_string s)))).
Proof.
  unfold normalize, sub_spaces, sub_non_alpha, sub_hyphen, lower.
  rewrite !on_chars_compose. unfold on_chars.
  apply list_ascii_of_string_of_list_ascii.
Qed.

Lemma lower_or_space_fixed (c : ascii) :
  is_lower_or_space c = true → lower_char c = c ∧ hyphen_to_space c = c.
Proof.
  destruct c as [[] [] [] [] [] [] [] []]; vm_compute; intros; split; congruence.
Qed.

Lemma collapse_Forall (P : ascii → Prop) (b : bool) (l : list ascii) :
  Forall P l → Forall P (collapse b l).
Proof.
  intros Hl. revert b. induction Hl as [|c l Hc _ IH]; intros b; simpl; [constructor|].
  destruct (Ascii.eqb c " "); [destruct b|]; try constructor; auto.
Qed.

Lemma collapse_idempotent (b : bool) (l : list ascii) :
  collapse b (collapse b l) = collapse b l.
Proof.
  revert b. induction l as [|c l IH]; intros b; simpl; [reflexivity|].
  destruct (Ascii.eqb c " ") eqn:Hc.
  - destruct b; [apply IH|]. simpl. rewrite Hc, IH. reflexivity.
  - simpl. rewrite Hc, IH. reflexivity.
Qed.

Lemma collapse_single_spaced (b : bool) (l : list ascii) :
  single_spaced false (collapse false l) = true
  ∧ (b = true → single_spaced true (collapse true l) = true).
Proof.
  revert b. induction l as [|c l IH]; intros b; simpl; [auto|].
  destruct (Ascii.eqb c " ") eqn:Hc; simpl; rewrite ?Hc; simpl.
  - destruct (IH true) as [_ H1]. split; auto.
  - destruct (IH false) as [H0 _]. split; auto.
Qed.

(** The text left by lines 117-120 holds only the letters a-z and
    single spaces. *)
Lemma normalize_shape (s : string) :
  Forall (fun c => is_lower_or_space c = true) (list_ascii_of_string (normalize s))
  ∧ single_spaced false (list_ascii_of_string (normalize s)) = true.
Proof.
  rewrite normalize_chars. split.
  - apply collapse_Forall. rewrite Forall_forall. intros c Hc.
    apply list_elem_of_In, filter_In in Hc. apply Hc.
  - apply (collapse_single_spaced false).
Qed.

Lemma map_fixed {A} (f : A → A) (l : list A) :
  Forall (fun x => f x = x) l → map f l = l.
Proof. induction 1 as [|x l Hx _ IH]; simpl; congruence. Qed.

Lemma filter_all {A} (p : A → bool) (l : list A) :
  Forall (fun x => p x = true) l → List.filter p l = l.
Proof. induction 1 as [|x l Hx _ IH]; simpl; [reflexivity|]. rewrite Hx, IH. reflexivity. Qed.

(** Normalising twice is normalising once: a second parse of the same
    list object finds the texts as the first one left them. *)
Lemma normalize_idempotent (s : string) : normalize (normalize s) = normalize s.
Proof.
  rewrite <- (string_of_list_ascii_of_string (normalize (normalize s))).
  rewrite <- (string_of_list_ascii_of_string (normalize s)) at 2.
  f_equal. rewrite (normalize_chars (normalize s)).
  destruct (normalize_shape s) as [Hchars _].
  rewrite !map_fixed, filter_all; try exact Hchars.
  - rewrite normalize_chars. apply collapse_idempotent.
  - eapply Forall_impl; [exact Hchars|]. intros c Hc. apply lower_or_space_fixed, Hc.
  - rewrite map_fixed.
    + eapply Forall_impl; [exact Hchars|]. intros c Hc. apply lower_or_space_fixed, Hc.
    + eapply Forall_impl; [exact Hchars|]. intros c Hc. apply lower_or_space_fixed, Hc.
Qed.

(** ** Parsing a batch *)

Section ParseFacts.

Context {dw : Type} `{!DirichletWords dw}.

Lemma set_lambda_same (s : StreamLDA dw) : set_lambda (_lambda s) s = s.
Proof. destruct s; reflexivity. Qed.

Lemma world_eta (w : world dw) : {| self := self w; heap := heap w |} = w.
Proof. destruct w; reflexivity. Qed.

Lemma index_words_app (a b : list string) (lambda : dw) :
  index_words (a ++ b) lambda = index_words b (index_words a lambda).
Proof. unfold index_words. apply foldl_app. Qed.

Lemma count_words_run (words : list string) (m : gmap nat nat) (w : world dw) :
  ∃ m', count_words words m w
        = (Ok m', {| self := set_lambda (index_words words (_lambda (self w))) (self w);
                     heap := heap w |}).
Proof.
  revert m w. induction words as [|word words IH]; intros m w.
  - exists m. simpl. unfold ret. rewrite set_lambda_same, world_eta. reflexivity.
  - simpl. unfold bind at 1. unfold get_self.
    destruct (dw_index word (_lambda (self w))) as [i lam] eqn:Hi.
    unfold bind at 1. unfold modify_self at 1.
    destruct (IH (<[i := (default 0 (m !! i) + 1)%nat]> m)
                {| self := set_lambda lam (self w); heap := heap w |}) as [m' Hm'].
    exists m'. rewrite Hm'. reflexivity.
Qed.

Lemma rewrite_item_run (l : loc) (d : nat) (f : string → string) (w : world dw)
  (h0 : gmap loc (list string)) (cur : list string) (s : string) :
  heap w = <[l := cur]> h0 → cur !! d = Some s →
  rewrite_item l d f w
  = (Ok tt, {| self := self w; heap := <[l := <[d := f s]> cur]> h0 |}).
Proof.
  intros Hh Hd. unfold rewrite_item, bind, heap_get, lift, heap_set, item.
  rewrite Hh, lookup_insert_eq. simpl. rewrite Hd.
  rewrite insert_insert_eq. reflexivity.
Qed.

Lemma normalize_item (l : loc) (d : nat) (w : world dw)
  (h0 : gmap loc (list string)) (cur : list string) (s : string) :
  heap w = <[l := cur]> h0 → cur !! d = Some s →
  bind (rewrite_item l d lower) (fun _ =>
  bind (rewrite_item l d sub_hyphen) (fun _ =>
  bind (rewrite_item l d sub_non_alpha) (fun _ =>
        rewrite_item l d sub_spaces))) w
  = (Ok tt, {| self := self w; heap := <[l := <[d := normalize s]> cur]> h0 |}).
Proof.
  intros Hh Hd.
  assert (Hlen : (d < length cur)%nat) by (eapply lookup_lt_Some; eauto).
  unfold bind at 1. rewrite (rewrite_item_run _ _ _ _ _ _ _ Hh Hd).
  unfold bind at 1.
  erewrite rewrite_item_run; [|reflexivity|apply list_lookup_insert_eq; exact Hlen].
  unfold bind at 1.
  erewrite rewrite_item_run;
    [|reflexivity|apply list_lookup_insert_eq; rewrite length_insert; exact Hlen].
  erewrite rewrite_item_run;
    [|reflexivity|apply list_lookup_insert_eq; rewrite !length_insert; exact Hlen].
  simpl. rewrite !list_insert_insert_eq. reflexivity.
Qed.

Lemma parse_loop_run (l : loc) (h0 : gmap loc (list string)) (n : nat) :
  ∀ (i : nat) (cur : list string) (w : world dw) (acc1 acc2 : list (list nat)),
    heap w = <[l := cur]> h0 → (i + n = length cur)%nat →
    ∃ r, parse_loop l (seq i n) acc1 acc2 w
         = (Ok r,
            {| self := set_lambda
                         (index_words (batch_words (drop i cur)) (_lambda (self w)))
                         (self w);
               heap := <[l := take i cur ++ map normalize (drop i cur)]> h0 |}).
Proof.
  induction n as [|n IH]; intros i cur w acc1 acc2 Hh Hlen.
  - exists (acc1, acc2). simpl. unfold ret.
    rewrite drop_ge by lia. rewrite take_ge by lia. simpl.
    rewrite app_nil_r, <- Hh. unfold batch_words, index_words. simpl.
    rewrite set_lambda_same, world_eta. reflexivity.
  - assert (Hi : (i < length cur)%nat) by lia.
    destruct (lookup_lt_is_Some_2 cur i Hi) as [s Hs].
    cbn [seq parse_loop].
    pose proof (normalize_item l i w h0 cur s Hh Hs) as Hnorm.
    unfold bind at 1. unfold bind at 1 in Hnorm.
    destruct (rewrite_item l i lower w) as [[[]|e] w1]; [|discriminate].
    unfold bind at 1. unfold bind at 1 in Hnorm.
    destruct (rewrite_item l i sub_hyphen w1) as [[[]|e] w2]; [|discriminate].
    unfold bind at 1. unfold bind at 1 in Hnorm.
    destruct (rewrite_item l i sub_non_alpha w2) as [[[]|e] w3]; [|discriminate].
    unfold bind at 1. rewrite Hnorm.
    unfold bind at 1. unfold heap_get at 1. cbn [heap].
    rewrite lookup_insert_eq. cbn [default from_option]. unfold Datatypes.id.
    unfold bind at 1. unfold lift at 1, item.
    rewrite list_lookup_insert_eq by exact Hi.
    unfold bind at 1.
    destruct (count_words_run (split (normalize s)) ∅
                {| self := self w; heap := <[l := <[i := normalize s]> cur]> h0 |})
      as [m Hm].
    rewrite Hm. cbn [self heap].
    edestruct (IH (S i) (<[i := normalize s]> cur)) as [r Hr];
      [| |exists r; rewrite Hr]; [reflexivity|rewrite length_insert; lia|].
    cbn [self heap]. f_equal. f_equal.
    + rewrite drop_insert_lt by lia.
      rewrite (drop_S cur s i Hs). unfold batch_words. cbn [map concat].
      rewrite index_words_app. reflexivity.
    + f_equal. rewrite drop_insert_lt by lia.
      rewrite (drop_S cur s i Hs). cbn [map].
      erewrite take_S_r by (apply list_lookup_insert_eq; exact Hi).
      rewrite take_insert_ge by lia.
      rewrite <- app_assoc. reflexivity.
Qed.

Lemma parse_new_docs_run (w : world dw) (l : loc) (docs : list string) :
  heap w !! l = Some docs →
  ∃ r, parse_new_docs (DocList l) w = (Ok r, after_parse w l docs).
Proof.
  intros Hl. unfold parse_new_docs, as_list.
  unfold bind at 1. unfold ret at 1.
  unfold bind at 1. unfold heap_get at 1. rewrite Hl. cbn [default from_option]. unfold Datatypes.id.
  unfold bind at 1. unfold modify_self at 1.
  edestruct (parse_loop_run l (heap w) (length docs) 0 docs) as [r Hr];
    [| |exists r; rewrite Hr]; [cbn [heap]; symmetry; apply insert_id; exact Hl|lia|].
  unfold after_parse. cbn [self heap]. rewrite drop_0, take_0.
  reflexivity.
Qed.

Variable psi : R → R.
Variable pow_nonpos : R → R → result R.
Variable gammaln : R → R.
Variable store_terms : StreamLDA dw → result R.

Lemma heap_get_after_parse (w : world dw) (l : loc) (docs : list string) :
  heap_get l (after_parse w l docs) = (Ok (map normalize docs), after_parse w l docs).
Proof.
  unfold heap_get, after_parse. cbn [heap]. rewrite lookup_insert_eq. reflexivity.
Qed.

(** The E-step of a batch given as a list: the batch is parsed, and
    line 160 (for a negative K) or line 166 raises. *)
Lemma do_e_step_run (draw : nat → nat → R) (w : world dw) (l : loc) (docs : list string) :
  heap w !! l = Some docs →
  do_e_step psi draw (DocList l) w
  = (Raise (if (_K (self w) <? 0)%Z then ValueError else NameError "DirichetWords"),
     after_parse w l docs).
Proof.
  intros Hl. unfold do_e_step, as_list.
  unfold bind at 1. unfold ret at 1.
  destruct (parse_new_docs_run w l docs Hl) as [[wordids wordcts] Hparse].
  unfold bind at 1. rewrite Hparse.
  unfold bind at 1. rewrite heap_get_after_parse.
  unfold bind at 1. unfold get_self at 1.
  unfold bind at 1. unfold lift at 1, random_gamma.
  change (_K (self (after_parse w l docs))) with (_K (self w)).
  destruct (_K (self w) <? 0)%Z; [reflexivity|].
  unfold bind at 1. unfold lift at 1.
  rewrite dirichlet_expectation_matrix.
  unfold bind at 1. unfold lift at 1. cbn [as_mat].
  unfold bind at 1. unfold lift at 1.
  reflexivity.
Qed.

(** [approx_bound] parses the batch once more before it scores it. *)
Lemma approx_bound_run (gamma : mat) (w : world dw) (l : loc) (docs : list string) :
  heap w !! l = Some docs →
  ∃ r, approx_bound psi gammaln store_terms (DocList l) gamma w = (r, after_parse w l docs).
Proof.
  intros Hl. unfold approx_bound.
  destruct (parse_new_docs_run w l docs Hl) as [[wordids wordcts] Hparse].
  unfold bind at 1. rewrite Hparse.
  unfold bind at 1. unfold len_docs. unfold bind at 1.
  rewrite heap_get_after_parse. unfold ret at 1.
  unfold bind at 1. unfold get_self at 1. unfold lift.
  eexists. reflexivity.
Qed.

(** [update_lambda] on a positive base: [_rhot] is set, the batch is
    parsed, and the E-step raises; nothing after line 241 runs. *)
Lemma update_lambda_run (draw : nat → nat → R) (w : world dw) (l : loc)
  (docs : list string) :
  heap w !! l = Some docs →
  (0 < _tau0 (self w) + IZR (_batches_to_date (self w)))%R →
  update_lambda psi pow_nonpos gammaln store_terms draw (DocList l) w
  = (Raise (if (_K (self w) <? 0)%Z then ValueError else NameError "DirichetWords"),
     after_parse
       {| self := set_rhot (Rpower (_tau0 (self w) + IZR (_batches_to_date (self w)))
                                   (- _kappa (self w)))
                           (self w);
          heap := heap w |} l docs).
Proof.
  intros Hl Hbase. unfold update_lambda.
  unfold bind at 1. unfold get_self at 1.
  unfold bind at 1. unfold lift at 1.
  rewrite rhot_of_positive_base by exact Hbase.
  unfold bind at 1. unfold modify_self at 1.
  unfold bind at 1.
  rewrite (do_e_step_run draw _ l docs) by exact Hl.
  reflexivity.
Qed.

End ParseFacts.


Lemma lookup_map {A B} (f : A → B) (l : list A) (i : nat) :
  map f l !! i = f <$> (l !! i).
Proof.
  revert i. induction l as [|x l IH]; intros [|i]; simpl; try reflexivity.
  apply IH.
Qed.

(** C10. A batch passed as a list is rewritten in place: after
    [parse_new_docs], [do_e_step], [approx_bound] and (with the
    positive base the learning rate needs) [update_lambda], the list
    object the caller passed holds the normalised texts, also when
    the call raised; an item whose text was not already normalised no
    longer holds its original text. *)
Theorem C10_docs_normalized_in_place {dw : Type} `{!DirichletWords dw}
  (psi : R → R) (pow_nonpos : R → R → result R)
  (gammaln : R → R) (store_terms : StreamLDA dw → result R)
  (draw : nat → nat → R) (gamma : mat) (w : world dw) (l : loc) (docs : list string) :
  heap w !! l = Some docs →
  heap (parse_new_docs (DocList l) w).2 !! l = Some (map normalize docs)
  ∧ heap (do_e_step psi draw (DocList l) w).2 !! l = Some (map normalize docs)
  ∧ heap (approx_bound psi gammaln store_terms (DocList l) gamma w).2 !! l
    = Some (map normalize docs)
  ∧ ((0 < _tau0 (self w) + IZR (_batches_to_date (self w)))%R →
     heap (update_lambda psi pow_nonpos gammaln store_terms draw (DocList l) w).2 !! l
     = Some (map normalize docs))
  ∧ (∀ d s, docs !! d = Some s → normalize s ≠ s →
            map normalize docs !! d ≠ Some s).
Proof.
  intros Hl. repeat split.
  - destruct (parse_new_docs_run w l docs Hl) as [r ->]. apply lookup_insert_eq.
  - rewrite (do_e_step_run psi draw w l docs Hl). apply lookup_insert_eq.
  - destruct (approx_bound_run psi gammaln store_terms gamma w l docs Hl) as [r ->].
    apply lookup_insert_eq.
  - intros Hbase.
    rewrite (update_lambda_run psi pow_nonpos gammaln store_terms draw w l docs Hl Hbase).
    apply lookup_insert_eq.
  - intros d s Hd Hne. rewrite lookup_map, Hd. simpl. congruence.
Qed.

(** C10 on the caller's list ["Cat dog-cat", "dog dog fish!"]. *)
Lemma C10_witness :
  heap world_run !! 0%nat = Some docs_run
  ∧ heap (do_e_step psi_run draw_run (DocList 0) world_run).2 !! 0%nat
    = Some ["cat dog cat"; "dog dog fish"]%string.
Proof.
  split; [reflexivity|].
  destruct (C10_docs_normalized_in_place psi_run pow_nonpos_run gammaln_run store_terms_run
              draw_run [] world_run 0%nat docs_run eq_refl) as (_ & Hstep & _).
  exact Hstep.
Defined.

(** C8, as amended. The E-step on a batch of N documents leaves the
    batch count, the cached expectation matrices and the
    hyperparameters as they were and merges nothing into lambda; it
    does add N to [_D] and passes every token of the batch through
    the store's [index]. *)
Theorem C8_e_step_frame {dw : Type} `{!DirichletWords dw} (psi : R → R)
  (draw : nat → nat → R) (w : world dw) (l : loc) (docs : list string) :
  heap w !! l = Some docs →
  let self' := self (do_e_step psi draw (DocList l) w).2 in
  _batches_to_date self' = _batches_to_date (self w)
  ∧ _Elogbeta self' = _Elogbeta (self w)
  ∧ _expElogbeta self' = _expElogbeta (self w)
  ∧ (_K self', _alpha self', _eta self', _tau0 self', _kappa self')
    = (_K (self w), _alpha (self w), _eta (self w), _tau0 (self w), _kappa (self w))
  ∧ _D self' = (_D (self w) + Z.of_nat (length docs))%Z
  ∧ _lambda self' = index_words (batch_words docs) (_lambda (self w)).
Proof.
  intros Hl self'. subst self'.
  rewrite (do_e_step_run psi draw w l docs Hl).
  repeat (split; [reflexivity|]). reflexivity.
Qed.

(** C8, as amended, on the fresh model and the two documents. *)
Lemma C8_witness :
  heap world_run !! 0%nat = Some docs_run
  ∧ _batches_to_date (self (do_e_step psi_run draw_run (DocList 0) world_run).2) = 0%Z
  ∧ _D (self (do_e_step psi_run draw_run (DocList 0) world_run).2) = 2%Z.
Proof.
  split; [reflexivity|].
  destruct (C8_e_step_frame psi_run draw_run world_run 0%nat docs_run eq_refl)
    as (Hb & _ & _ & _ & HD & _).
  split; [exact Hb|exact HD].
Defined.

(** C8, as stated, fails: the E-step on a fresh model and two
    documents moves [_D] from 0 to 2 and grows the vocabulary of the
    store from no word to three. *)
Lemma C8_e_step_is_not_read_only :
  _D (self world_run) = 0%Z
  ∧ _D (self (do_e_step psi_run draw_run (DocList 0) world_run).2) = 2%Z
  ∧ dw_words_len (_lambda (self world_run)) = 0%nat
  ∧ dw_words_len (_lambda (self (do_e_step psi_run draw_run (DocList 0) world_run).2))
    = 3%nat.
Proof.
  rewrite (do_e_step_run psi_run draw_run world_run 0%nat docs_run eq_refl).
  split; [reflexivity|]. split; [lazy; reflexivity|].
  split; [reflexivity|]. lazy. reflexivity.
Qed.

(** C4. The specification: a call of [update_lambda] on N documents adds N to
    [_D] and 1 to [_batches_to_date]. On a fresh model and two
    documents the call raises NameError at line 166, where
    [DirichetWords] is not a name of the module; [_D] has become 2
    and [_batches_to_date] is still 0, line 256 being out of reach. *)
Theorem C4_update_raises_before_counting_the_batch :
  ∃ w' : world word_store,
    update_lambda psi_run pow_nonpos_run gammaln_run store_terms_run draw_run (DocList 0) world_run
    = (Raise (NameError "DirichetWords"), w')
    ∧ _D (self w') = 2%Z
    ∧ _batches_to_date (self w') = 0%Z.
Proof.
  eexists. split.
  - rewrite (update_lambda_run psi_run pow_nonpos_run gammaln_run store_terms_run draw_run
               world_run 0%nat docs_run eq_refl); [reflexivity|].
    simpl. lra.
  - split; reflexivity.
Qed.

(** ** The learning rate of a call *)

(** C3. Take an instance constructed with [tau0] >= 0, so that the
    internal offset [tau0 + 1] of line 62 is at least 1, and with
    [kappa] > 0, in any later state in which [_batches_to_date] is
    b >= 0. The weight that line 236 computes, and that the call of
    [update_lambda] stores in [_rhot], is (tau0 + 1 + b)^(-kappa); it
    is (tau0 + 1)^(-kappa) for b = 0, lies in (0, 1], and is strictly
    smaller for every later batch index b' > b. *)
Theorem C3_learning_rate {dw : Type} `{!DirichletWords dw}
  (psi : R → R) (pow_nonpos : R → R → result R)
  (gammaln : R → R) (store_terms : StreamLDA dw → result R)
  (draw : nat → nat → R) (K : Z) (alpha eta tau0 kappa : R) (b : Z)
  (self0 : StreamLDA dw) (w : world dw) (l : loc) (docs : list string) :
  (0 <= tau0)%R → (0 < kappa)%R → (0 <= b)%Z →
  __init__ K alpha eta tau0 kappa = Ok self0 →
  _tau0 (self w) = _tau0 self0 → _kappa (self w) = _kappa self0 →
  _batches_to_date (self w) = b →
  heap w !! l = Some docs →
  let rhot := fun b : Z => Rpower (tau0 + 1 + IZR b) (- kappa) in
  rhot_of pow_nonpos (self w) = Ok (rhot b)
  ∧ _rhot (self (update_lambda psi pow_nonpos gammaln store_terms draw (DocList l) w).2)
    = Some (rhot b)
  ∧ rhot 0%Z = Rpower (tau0 + 1) (- kappa)
  ∧ (0 < rhot b <= 1)%R
  ∧ (∀ b' : Z, (b < b')%Z → (rhot b' < rhot b)%R).
Proof.
  intros Htau Hkappa Hb Hinit Htau0 Hkap Hbatches Hl rhot.
  injection Hinit as <-. cbn [_tau0 _kappa] in Htau0, Hkap.
  assert (Hb' : (0 <= IZR b)%R) by (apply IZR_le in Hb; exact Hb).
  assert (Hbase : (0 < _tau0 (self w) + IZR (_batches_to_date (self w)))%R)
    by (rewrite Htau0, Hbatches; lra).
  split; [|split; [|split; [|split]]].
  - rewrite rhot_of_positive_base by exact Hbase.
    rewrite Htau0, Hkap, Hbatches. reflexivity.
  - rewrite (update_lambda_run psi pow_nonpos gammaln store_terms draw w l docs Hl Hbase).
    cbn [snd after_parse self set_D set_lambda set_rhot _rhot _tau0 _kappa
         _batches_to_date].
    rewrite Htau0, Hkap, Hbatches. reflexivity.
  - unfold rhot. rewrite Rplus_0_r. reflexivity.
  - apply Rpower_base_ge_1; lra.
  - intros b' Hlt. apply IZR_lt in Hlt.
    unfold rhot. apply Rpower_decreasing_in_base; lra.
Qed.

(** C3 on the first batch of [StreamLDA(2, 0.1, 0.1, 1, 0.5)]: the
    weight is 2^(-1/2). *)
Lemma C3_witness :
  __init__ 2 (1 / 10) (1 / 10) 1 (1 / 2) = Ok model_run
  ∧ heap world_run !! 0%nat = Some docs_run
  ∧ _rhot (self (update_lambda psi_run pow_nonpos_run gammaln_run store_terms_run draw_run
                   (DocList 0) world_run).2)
    = Some (Rpower (1 + 1 + 0) (- (1 / 2))).
Proof.
  split; [reflexivity|]. split; [reflexivity|].
  assert (H1 : (0 <= 1)%R) by lra.
  assert (H2 : (0 < 1 / 2)%R) by lra.
  assert (Hinit : __init__ 2 (1 / 10) (1 / 10) 1 (1 / 2) = Ok model_run)
    by reflexivity.
  destruct (C3_learning_rate psi_run pow_nonpos_run gammaln_run store_terms_run draw_run
              2 (1 / 10) (1 / 10) 1 (1 / 2) 0 model_run world_run 0%nat docs_run
              H1 H2 (Z.le_refl 0) Hinit eq_refl eq_refl eq_refl eq_refl)
    as (_ & Hrhot & _).
  exact Hrhot.
Defined.

(** ** The text of a document (lines 117-126) *)

Lemma collapse_fixed (b : bool) (l : list ascii) :
  single_spaced b l = true → collapse b l = l.
Proof.
  revert b. induction l as [|c l IH]; intros b; simpl; [reflexivity|].
  destruct (Ascii.eqb c " ").
  - destruct b; simpl; [discriminate|]. intros H. rewrite IH by exact H. reflexivity.
  - intros H. rewrite IH by exact H. reflexivity.
Qed.

Lemma chars_injective (s t : string) :
  list_ascii_of_string s = list_ascii_of_string t → s = t.
Proof.
  intros H. rewrite <- (string_of_list_ascii_of_string s),
    <- (string_of_list_ascii_of_string t), H. reflexivity.
Qed.

(** X1. The texts that lines 117-120 leave as they are are exactly
    those made of the letters a-z and single spaces: [normalize s = s]
    if and only if every character of [s] is a lower-case letter or a
    space and no two spaces follow each other. *)
Theorem normalize_fixed_points (s : string) :
  normalize s = s
  ↔ Forall (fun c => is_lower_or_space c = true) (list_ascii_of_string s)
    ∧ single_spaced false (list_ascii_of_string s) = true.
Proof.
  split.
  - intros <-. apply normalize_shape.
  - intros [Hchars Hspaces]. apply chars_injective. rewrite normalize_chars.
    rewrite !map_fixed, filter_all, collapse_fixed; auto.
    + eapply Forall_impl; [exact Hchars|]. intros c Hc. apply lower_or_space_fixed, Hc.
    + rewrite map_fixed.
      * eapply Forall_impl; [exact Hchars|]. intros c Hc. apply lower_or_space_fixed, Hc.
      * eapply Forall_impl; [exact Hchars|]. intros c Hc. apply lower_or_space_fixed, Hc.
Qed.

(** X1 on the text "cat dog", which is left as it is. *)
Lemma normalize_fixed_points_witness :
  normalize "cat dog" = "cat dog"%string.
Proof.
  apply (proj2 (normalize_fixed_points "cat dog")).
  split; [repeat constructor|reflexivity].
Defined.

Lemma char_case_hyphen (c : ascii) :
  hyphen_to_space (lower_char (lower_char c)) = hyphen_to_space (lower_char c)
  ∧ hyphen_to_space (lower_char (hyphen_to_space c)) = hyphen_to_space (lower_char c).
Proof.
  destruct c as [[] [] [] [] [] [] [] []]; vm_compute; split; reflexivity.
Qed.

(** X2. Case and hyphens do not matter to lines 117-120: a text, its
    lower-case form and its form with spaces for hyphens are
    normalised to the same text. *)
Theorem normalize_ignores_case_and_hyphens (s : string) :
  normalize (lower s) = normalize s ∧ normalize (sub_hyphen s) = normalize s.
Proof.
  split; apply chars_injective; rewrite !normalize_chars;
    unfold lower, sub_hyphen, on_chars;
    rewrite list_ascii_of_string_of_list_ascii; do 2 f_equal;
    rewrite !map_map; apply map_ext; intros c; apply char_case_hyphen.
Qed.

Lemma split_chars_tokens (Q : ascii → Prop) (s cur : list ascii) (w : string) :
  Forall Q cur →
  Forall (fun c => is_whitespace c = false → Q c) s →
  w ∈ split_chars cur s →
  list_ascii_of_string w ≠ [] ∧ Forall Q (list_ascii_of_string w).
Proof.
  revert cur. induction s as [|c s IH]; intros cur Hcur Hs; simpl.
  - destruct cur as [|x cur]; [intros H; inversion H|].
    intros Hw. apply list_elem_of_singleton in Hw. subst w.
    rewrite list_ascii_of_string_of_list_ascii. split.
    + simpl. intros E. apply app_eq_nil in E. destruct E; discriminate.
    + rewrite Forall_forall in *. intros y Hy.
      apply Hcur. apply list_elem_of_In. apply list_elem_of_In in Hy.
      apply in_rev. exact Hy.
  - inversion Hs as [|? ? Hc Hs']; subst.
    destruct (is_whitespace c) eqn:Hws.
    + destruct cur as [|x cur]; [apply IH; [constructor|exact Hs']|].
      intros Hw. apply elem_of_cons in Hw. destruct Hw as [Heq | Hw].
      * subst w. rewrite list_ascii_of_string_of_list_ascii. split.
        -- simpl. intros E. apply app_eq_nil in E. destruct E; discriminate.
        -- rewrite Forall_forall in *. intros y Hy.
           apply Hcur. apply list_elem_of_In. apply list_elem_of_In in Hy.
           apply in_rev. exact Hy.
      * revert Hw. apply IH; [constructor|exact Hs'].
    + apply IH; [|exact Hs']. constructor; [apply Hc; reflexivity|exact Hcur].
Qed.

Lemma lower_not_space (c : ascii) :
  is_lower_or_space c = true → is_whitespace c = false → is_lower c = true.
Proof.
  destruct c as [[] [] [] [] [] [] [] []]; vm_compute; intros; congruence.
Qed.

(** X3. Every token that line 126 hands to the store's [index] is a
    non-empty word of the letters a-z: no empty string, no digit, no
    capital and no punctuation ever reaches the vocabulary. *)
Theorem tokens_are_lowercase_words (s w : string) :
  w ∈ split (normalize s) →
  w ≠ ""%string ∧ Forall (fun c => is_lower c = true) (list_ascii_of_string w).
Proof.
  intros Hw. unfold split in Hw.
  destruct (normalize_shape s) as [Hchars _].
  destruct (split_chars_tokens (fun c => is_lower c = true)
              (list_ascii_of_string (normalize s)) [] w) as [Hne Hlow]; auto.
  - eapply Forall_impl; [exact Hchars|]. intros c Hc Hws.
    apply lower_not_space; assumption.
  - split; [|exact Hlow]. intros ->. apply Hne. reflexivity.
Qed.

(** X3 on the token "cat" of the text "Cat dog-cat". *)
Lemma tokens_witness :
  ("cat"%string ∈ split (normalize "Cat dog-cat"))
  ∧ "cat"%string ≠ ""%string
  ∧ Forall (fun c => is_lower c = true) (list_ascii_of_string "cat").
Proof.
  assert (H : "cat"%string ∈ split (normalize "Cat dog-cat")).
  { vm_compute. apply list_elem_of_here. }
  split; [exact H|]. exact (tokens_are_lowercase_words _ _ H).
Defined.

Lemma non_letter_becomes_space (c : ascii) :
  is_letter c = false →
  is_lower_or_space (hyphen_to_space (lower_char c)) = true →
  hyphen_to_space (lower_char c) = " "%char.
Proof.
  destruct c as [[] [] [] [] [] [] [] []]; vm_compute; intros; congruence.
Qed.

Lemma collapse_spaces (b : bool) (l : list ascii) :
  Forall (fun c => c = " "%char) l → Forall (fun c => c = " "%char) (collapse b l).
Proof. apply collapse_Forall. Qed.

Lemma split_chars_spaces (l : list ascii) :
  Forall (fun c => c = " "%char) l → split_chars [] l = [].
Proof. induction 1 as [|c l -> _ IH]; simpl; [reflexivity|exact IH]. Qed.

(** X4. A text without a letter has no token: its document reaches
    the E-step with no word id at all. *)
Theorem text_without_letters_has_no_token (s : string) :
  Forall (fun c => is_letter c = false) (list_ascii_of_string s) →
  split (normalize s) = [].
Proof.
  intros Hs. unfold split. rewrite normalize_chars.
  apply split_chars_spaces, collapse_spaces.
  induction Hs as [|c l Hc _ IH]; simpl; [constructor|].
  destruct (is_lower_or_space (hyphen_to_space (lower_char c))) eqn:Hk; [|exact IH].
  constructor; [|exact IH]. apply non_letter_becomes_space; assumption.
Qed.

(** X4 on the text "12 - 3!". *)
Lemma text_without_letters_witness :
  Forall (fun c => is_letter c = false) (list_ascii_of_string "12 - 3!")
  ∧ split (normalize "12 - 3!") = [].
Proof.
  assert (H : Forall (fun c => is_letter c = false) (list_ascii_of_string "12 - 3!")).
  { repeat constructor. }
  split; [exact H|]. exact (text_without_letters_has_no_token _ H).
Defined.

(** ** The ids and counts of a batch (lines 104-135) *)

Lemma sum_list_perm (l1 l2 : list nat) : l1 ≡ₚ l2 → sum_list l1 = sum_list l2.
Proof. induction 1; simpl; lia. Qed.

Lemma total_after_count (m : gmap nat nat) (i : nat) :
  sum_list (map_to_list (<[i := (default 0 (m !! i) + 1)%nat]> m)).*2
  = S (sum_list (map_to_list m).*2).
Proof.
  destruct (m !! i) as [x|] eqn:Hi; simpl.
  - rewrite <- (insert_delete_eq m i (x + 1)%nat).
    rewrite (sum_list_perm _ _
               (fmap_Permutation snd _ _
                  (map_to_list_insert (delete i m) i (x + 1)%nat (lookup_delete_eq m i)))).
    rewrite <- (sum_list_perm _ _
                  (fmap_Permutation snd _ _ (map_to_list_delete m i x Hi))).
    simpl. rewrite Nat.add_1_r. reflexivity.
  - rewrite (sum_list_perm _ _
               (fmap_Permutation snd _ _ (map_to_list_insert m i 1%nat Hi))).
    reflexivity.
Qed.

Section CountFacts.

Context {dw : Type} `{!DirichletWords dw}.

Lemma count_words_counts (words : list string) (m : gmap nat nat) (w : world dw) :
  ∃ m', (count_words words m w).1 = Ok m'
        ∧ sum_list (map_to_list m').*2
          = (sum_list (map_to_list m).*2 + length words)%nat
        ∧ ((∀ k c, m !! k = Some c → (1 <= c)%nat) →
           ∀ k c, m' !! k = Some c → (1 <= c)%nat).
Proof.
  revert m w. induction words as [|word words IH]; intros m w.
  - exists m. simpl. split; [reflexivity|]. split; [lia|auto].
  - simpl. unfold bind at 1. unfold get_self.
    destruct (dw_index word (_lambda (self w))) as [i lam].
    unfold bind at 1. unfold modify_self at 1.
    destruct (IH (<[i := (default 0 (m !! i) + 1)%nat]> m)
                {| self := set_lambda lam (self w); heap := heap w |})
      as (m' & Hrun & Hsum & Hpos).
    exists m'. split; [exact Hrun|]. split.
    + rewrite Hsum, total_after_count. lia.
    + intros Hm. apply Hpos. intros k c Hk.
      destruct (decide (i = k)) as [->|Hne].
      * rewrite lookup_insert_eq in Hk. injection Hk as <-. lia.
      * rewrite lookup_insert_ne in Hk by exact Hne. eapply Hm. exact Hk.
Qed.

Lemma counts_of_document (words : list string) (w : world dw) (m : gmap nat nat) :
  (count_words words ∅ w).1 = Ok m →
  length (map_to_list m).*1 = length (map_to_list m).*2
  ∧ NoDup (map_to_list m).*1
  ∧ Forall (fun c => (1 <= c)%nat) (map_to_list m).*2
  ∧ sum_list (map_to_list m).*2 = length words.
Proof.
  intros Hm. destruct (count_words_counts words ∅ w) as (m' & Hrun & Hsum & Hpos).
  rewrite Hrun in Hm. injection Hm as ->.
  split; [rewrite !length_fmap; reflexivity|].
  split; [apply NoDup_fst_map_to_list|].
  split.
  - assert (Hall : ∀ k c, m !! k = Some c → (1 <= c)%nat).
    { apply Hpos. intros k c Hk. rewrite lookup_empty in Hk. discriminate. }
    rewrite Forall_forall. intros c Hc.
    apply list_elem_of_fmap in Hc. destruct Hc as ([k c'] & -> & Hin).
    apply elem_of_map_to_list in Hin. exact (Hall k c' Hin).
  - rewrite Hsum, map_to_list_empty. reflexivity.
Qed.

Lemma parse_loop_counts (l : loc) (h0 : gmap loc (list string)) (n : nat) :
  ∀ (i : nat) (cur : list string) (w : world dw) (acc1 acc2 : list (list nat)),
    heap w = <[l := cur]> h0 → (i + n = length cur)%nat →
    ∃ r1 r2, (parse_loop l (seq i n) acc1 acc2 w).1 = Ok (acc1 ++ r1, acc2 ++ r2)
             ∧ Forall3 counted (drop i cur) r1 r2.
Proof.
  induction n as [|n IH]; intros i cur w acc1 acc2 Hh Hlen.
  - exists [], []. simpl. rewrite !app_nil_r. split; [reflexivity|].
    rewrite drop_ge by lia. constructor.
  - assert (Hi : (i < length cur)%nat) by lia.
    destruct (lookup_lt_is_Some_2 cur i Hi) as [s Hs].
    cbn [seq parse_loop].
    pose proof (normalize_item l i w h0 cur s Hh Hs) as Hnorm.
    unfold bind at 1. unfold bind at 1 in Hnorm.
    destruct (rewrite_item l i lower w) as [[[]|e] w1]; [|discriminate].
    unfold bind at 1. unfold bind at 1 in Hnorm.
    destruct (rewrite_item l i sub_hyphen w1) as [[[]|e] w2]; [|discriminate].
    unfold bind at 1. unfold bind at 1 in Hnorm.
    destruct (rewrite_item l i sub_non_alpha w2) as [[[]|e] w3]; [|discriminate].
    unfold bind at 1. rewrite Hnorm.
    unfold bind at 1. unfold heap_get at 1. cbn [heap].
    rewrite lookup_insert_eq. cbn [default from_option]. unfold Datatypes.id.
    unfold bind at 1. unfold lift at 1, item.
    rewrite list_lookup_insert_eq by exact Hi.
    unfold bind at 1.
    destruct (count_words_run (split (normalize s)) ∅
                {| self := self w; heap := <[l := <[i := normalize s]> cur]> h0 |})
      as [m Hm].
    pose proof (counts_of_document (split (normalize s)) _ m
                  (f_equal fst Hm)) as Hcounted.
    rewrite Hm. cbn [self heap].
    destruct (IH (S i) (<[i := normalize s]> cur)
                {| self := set_lambda (index_words (split (normalize s))
                                         (_lambda (self w))) (self w);
                   heap := <[l := <[i := normalize s]> cur]> h0 |}
                (acc1 ++ [(map_to_list m).*1]) (acc2 ++ [(map_to_list m).*2])
                eq_refl ltac:(rewrite length_insert; lia))
      as (r1 & r2 & Hr & Hrest).
    exists ((map_to_list m).*1 :: r1), ((map_to_list m).*2 :: r2).
    rewrite Hr, <- !app_assoc. split; [reflexivity|].
    rewrite drop_insert_lt in Hrest by lia.
    rewrite (drop_S cur s i Hs). constructor; [exact Hcounted|exact Hrest].
Qed.

Lemma parse_list_counts (w : world dw) (l : loc) (docs : list string) :
  heap w !! l = Some docs →
  ∃ wordids wordcts,
    (parse_new_docs (DocList l) w).1 = Ok (wordids, wordcts)
    ∧ length wordids = length docs
    ∧ length wordcts = length docs
    ∧ Forall3 counted docs wordids wordcts.
Proof.
  intros Hl. unfold parse_new_docs, as_list.
  unfold bind at 1. unfold ret at 1.
  unfold bind at 1. unfold heap_get at 1. rewrite Hl. cbn [default from_option].
  unfold Datatypes.id.
  unfold bind at 1. unfold modify_self at 1.
  edestruct (parse_loop_counts l (heap w) (length docs) 0 docs) as (r1 & r2 & Hr & Hall);
    [| |exists r1, r2; rewrite Hr];
    [cbn [heap]; symmetry; apply insert_id; exact Hl|lia|].
  rewrite drop_0 in Hall.
  split; [reflexivity|].
  split; [symmetry; eapply Forall3_length_lm; exact Hall|].
  split; [symmetry; eapply Forall3_length_lr; exact Hall|exact Hall].
Qed.

(** X5. Parsing a batch given as a list always succeeds and returns
    one list of ids and one list of counts per document; for each
    document the ids are distinct and pair off with the counts, every
    count is at least one, and the counts add up to the number of
    tokens of the document: every token is counted exactly once. *)
Theorem parse_counts_every_token (w : world dw) (l : loc) (docs : list string) :
  heap w !! l = Some docs →
  ∃ wordids wordcts,
    (parse_new_docs (DocList l) w).1 = Ok (wordids, wordcts)
    ∧ length wordids = length docs
    ∧ length wordcts = length docs
    ∧ Forall3 counted docs wordids wordcts.
Proof. apply parse_list_counts. Qed.

End CountFacts.

(** X5 on the caller's list ["Cat dog-cat", "dog dog fish!"]. *)
Lemma parse_counts_witness :
  heap world_run !! 0%nat = Some docs_run
  ∧ ∃ wordids wordcts,
      (parse_new_docs (DocList 0) world_run).1 = Ok (wordids, wordcts)
      ∧ length wordids = 2%nat.
Proof.
  split; [reflexivity|].
  destruct (parse_counts_every_token world_run 0%nat docs_run eq_refl)
    as (wordids & wordcts & Hrun & Hids & _).
  exists wordids, wordcts. split; [exact Hrun|exact Hids].
Defined.

(** ** A batch given as one string, and what the calls never do *)

Section SingleString.

Context {dw : Type} `{!DirichletWords dw}.
Variable psi : R → R.
Variable pow_nonpos : R → R → result R.
Variable gammaln : R → R.
Variable store_terms : StreamLDA dw → result R.

Lemma fresh_loc_unused (w : world dw) : heap w !! fresh (dom (heap w)) = None.
Proof. apply not_elem_of_dom, is_fresh. Qed.

Lemma parse_string_as_list (w : world dw) (s : string) :
  parse_new_docs (DocStr s) w
  = parse_new_docs (DocList (fresh (dom (heap w)))) (with_singleton w s).
Proof. reflexivity. Qed.

Lemma e_step_string_as_list (draw : nat → nat → R) (w : world dw) (s : string) :
  do_e_step psi draw (DocStr s) w
  = do_e_step psi draw (DocList (fresh (dom (heap w)))) (with_singleton w s).
Proof. reflexivity. Qed.

Lemma singleton_is_there (w : world dw) (s : string) :
  heap (with_singleton w s) !! fresh (dom (heap w)) = Some [s].
Proof. unfold with_singleton. cbn [heap]. apply lookup_insert_eq. Qed.

Lemma parse_string_counts (w : world dw) (s : string) :
  ∃ ids cts, (parse_new_docs (DocStr s) w).1 = Ok ([ids], [cts]) ∧ counted s ids cts.
Proof.
  rewrite parse_string_as_list.
  destruct (parse_list_counts _ _ _ (singleton_is_there w s))
    as (wordids & wordcts & Hres & _ & _ & Hall).
  inversion Hall as [|? ? ? ? ? ? Hc Hrest]; subst.
  inversion Hrest; subst. eauto.
Qed.

(** X6. A batch given as one bare string is parsed as a batch of one
    document on a list of its own (lines 104-105): the call returns
    the ids and counts of that one document, [_D] grows by one, the
    tokens of the string go through the store's [index], and no list
    the caller holds is touched. *)
Theorem parse_of_a_bare_string (w : world dw) (s : string) :
  (∃ ids cts, (parse_new_docs (DocStr s) w).1 = Ok ([ids], [cts])
              ∧ counted s ids cts)
  ∧ _D (self (parse_new_docs (DocStr s) w).2) = (_D (self w) + 1)%Z
  ∧ _lambda (self (parse_new_docs (DocStr s) w).2)
    = index_words (split (normalize s)) (_lambda (self w))
  ∧ (∀ l docs, heap w !! l = Some docs →
               heap (parse_new_docs (DocStr s) w).2 !! l = Some docs).
Proof.
  split; [apply parse_string_counts|].
  rewrite parse_string_as_list.
  destruct (parse_new_docs_run _ _ _ (singleton_is_there w s)) as [r Hrun].
  rewrite Hrun; cbn [snd after_parse self heap _D _lambda set_D set_lambda
                     with_singleton length]; split; [|split].
  - reflexivity.
  - unfold batch_words. cbn [map concat]. rewrite app_nil_r. reflexivity.
  - intros l docs Hdocs.
    assert (Hne : fresh (dom (heap w)) ≠ l).
    { intros <-. rewrite fresh_loc_unused in Hdocs. discriminate. }
    rewrite !lookup_insert_ne by exact Hne. exact Hdocs.
Qed.

Lemma e_step_raises_on_list (draw : nat → nat → R) (w : world dw) (l : loc) :
  is_Some (heap w !! l) →
  ∃ e, (do_e_step psi draw (DocList l) w).1 = Raise e
       ∧ (e = ValueError ∨ e = NameError "DirichetWords")
       ∧ _batches_to_date (self (do_e_step psi draw (DocList l) w).2)
         = _batches_to_date (self w)
       ∧ _expElogbeta (self (do_e_step psi draw (DocList l) w).2)
         = _expElogbeta (self w).
Proof.
  intros [docs Hl]. rewrite (do_e_step_run psi draw w l docs Hl).
  eexists. split; [reflexivity|]. split; [|split; reflexivity].
  destruct (_K (self w) <? 0)%Z; auto.
Qed.

(** X7. The E-step never returns: on every batch, a bare string or a
    live list, [do_e_step] raises, ValueError from line 160 (a
    negative dimension for the random gamma) when K is negative and
    NameError from line 166 (the misspelt [DirichetWords]) otherwise;
    the batch count and the cached matrix are as before. *)
Theorem e_step_never_returns (draw : nat → nat → R) (w : world dw) (docs : docs_arg) :
  live_docs w docs →
  ∃ e, (do_e_step psi draw docs w).1 = Raise e
       ∧ (e = ValueError ∨ e = NameError "DirichetWords")
       ∧ _batches_to_date (self (do_e_step psi draw docs w).2)
         = _batches_to_date (self w)
       ∧ _expElogbeta (self (do_e_step psi draw docs w).2) = _expElogbeta (self w).
Proof.
  destruct docs as [s|l]; intros Hlive.
  - rewrite e_step_string_as_list.
    apply (e_step_raises_on_list draw (with_singleton w s)).
    rewrite singleton_is_there. eauto.
  - apply e_step_raises_on_list. exact Hlive.
Qed.

(** X8. [update_lambda] never returns and never counts a batch:
    whatever the configuration and the batch, the call raises (at
    line 236, 160 or 166) and leaves [_batches_to_date] and
    [_expElogbeta] as they were. *)
Theorem update_never_returns (draw : nat → nat → R) (w : world dw) (docs : docs_arg) :
  live_docs w docs →
  (∃ e, (update_lambda psi pow_nonpos gammaln store_terms draw docs w).1 = Raise e)
  ∧ _batches_to_date (self (update_lambda psi pow_nonpos gammaln store_terms draw docs w).2)
    = _batches_to_date (self w)
  ∧ _expElogbeta (self (update_lambda psi pow_nonpos gammaln store_terms draw docs w).2)
    = _expElogbeta (self w).
Proof.
  intros Hlive.
  assert (Hstep : ∀ w0 : world dw, live_docs w0 docs →
            ∃ e, (do_e_step psi draw docs w0).1 = Raise e
                 ∧ _batches_to_date (self (do_e_step psi draw docs w0).2)
                   = _batches_to_date (self w0)
                 ∧ _expElogbeta (self (do_e_step psi draw docs w0).2)
                   = _expElogbeta (self w0)).
  { intros w0 H0. destruct docs as [s|l].
    - rewrite e_step_string_as_list.
      destruct (e_step_raises_on_list draw (with_singleton w0 s)
                  (fresh (dom (heap w0)))) as (e & He & _ & Hrest).
      + rewrite singleton_is_there. eauto.
      + eauto.
    - destruct (e_step_raises_on_list draw w0 l H0) as (e & He & _ & Hrest). eauto. }
  assert (Hrun : ∃ e w',
             update_lambda psi pow_nonpos gammaln store_terms draw docs w = (Raise e, w')
             ∧ _batches_to_date (self w') = _batches_to_date (self w)
             ∧ _expElogbeta (self w') = _expElogbeta (self w)).
  { unfold update_lambda.
    unfold bind at 1. unfold get_self at 1.
    unfold bind at 1. unfold lift at 1.
    destruct (rhot_of pow_nonpos (self w)) as [rhot|e]; [|eauto].
    unfold bind at 1. unfold modify_self at 1.
    destruct (Hstep {| self := set_rhot rhot (self w); heap := heap w |})
      as (e & He & Hb & He').
    { destruct docs; [exact I|exact Hlive]. }
    unfold bind at 1.
    destruct (do_e_step psi draw docs _) as [[r|e0] w1]; [discriminate|].
    cbn [fst snd] in *. exists e0, w1. split; [reflexivity|].
    split; [exact Hb|exact He']. }
  destruct Hrun as (e & w' & -> & Hb & He). cbn [fst snd].
  split; [eauto|]. split; [exact Hb|exact He].
Qed.

Lemma batch_words_normalized (docs : list string) :
  batch_words (map normalize docs) = batch_words docs.
Proof.
  unfold batch_words. rewrite map_map. f_equal. apply map_ext.
  intros s. rewrite normalize_idempotent. reflexivity.
Qed.

(** X9. The E-step followed by the bound on the same list, as lines
    241-243 run them, parses the batch twice: the texts stay as the
    first parse left them, but [_D] has grown by twice the number of
    documents and every token has been through [index] twice. *)
Theorem e_step_then_bound_counts_twice (draw : nat → nat → R) (gamma : mat)
  (w : world dw) (l : loc) (docs : list string) :
  heap w !! l = Some docs →
  let w1 := (do_e_step psi draw (DocList l) w).2 in
  let w2 := (approx_bound psi gammaln store_terms (DocList l) gamma w1).2 in
  heap w2 = heap w1
  ∧ heap w2 !! l = Some (map normalize docs)
  ∧ _D (self w2) = (_D (self w) + 2 * Z.of_nat (length docs))%Z
  ∧ _lambda (self w2)
    = index_words (batch_words docs) (index_words (batch_words docs) (_lambda (self w))).
Proof.
  intros Hl w1 w2. subst w1 w2.
  rewrite (do_e_step_run psi draw w l docs Hl). cbn [snd].
  assert (Hl1 : heap (after_parse w l docs) !! l = Some (map normalize docs))
    by apply lookup_insert_eq.
  destruct (approx_bound_run psi gammaln store_terms gamma _ l _ Hl1) as [r ->].
  cbn [snd after_parse self heap _D _lambda set_D set_lambda].
  rewrite insert_insert_eq, batch_words_normalized, length_map.
  assert (Hnn : map normalize (map normalize docs) = map normalize docs).
  { rewrite map_map. apply map_ext. intros s. apply normalize_idempotent. }
  rewrite Hnn. split; [reflexivity|]. split; [apply lookup_insert_eq|].
  split; [lia|reflexivity].
Qed.

Lemma likelihood_loop_short (self : StreamLDA dw) (wordids wordcts : list (list nat))
  (gamma Elogtheta : mat) (n : nat) (score : R) :
  (length wordids <= 1)%nat → (2 <= n)%nat →
  ∃ e, likelihood_loop self wordids wordcts gamma Elogtheta (seq 0 n) score = Raise e.
Proof.
  intros Hids Hn. destruct n as [|[|n]]; try lia.
  cbn [seq likelihood_loop].
  destruct (document_score self wordids wordcts gamma Elogtheta 0) as [x|e];
    cbn [rbind]; [|eauto].
  unfold document_score at 1.
  destruct (item gamma 1) as [g|e]; cbn [rbind]; [|eauto].
  unfold item at 1. rewrite lookup_ge_None_2 by lia. cbn [rbind]. eauto.
Qed.

(** X10. [approx_bound] on a bare string of two characters or more
    always raises: the test of line 273 compares the type name with
    'string' and so never wraps the string, line 279 takes the number
    of characters for the number of documents, and the loop of line
    286 runs past the one document the parse has produced. *)
Theorem bound_of_a_bare_string_raises (gamma : mat) (w : world dw) (s : string) :
  (2 <= String.length s)%nat →
  ∃ e, (approx_bound psi gammaln store_terms (DocStr s) gamma w).1 = Raise e.
Proof.
  intros Hlen.
  destruct (parse_string_counts w s) as (ids & cts & Hres & _).
  unfold approx_bound. unfold bind at 1.
  destruct (parse_new_docs (DocStr s) w) as [[[wordids wordcts]|e] w1];
    cbn [fst] in Hres; [|discriminate].
  injection Hres as -> ->.
  unfold bind at 1. unfold len_docs, ret at 1.
  unfold bind at 1. unfold get_self at 1. unfold lift. cbn [fst].
  unfold bound_score. rewrite dirichlet_expectation_matrix. cbn [rbind as_mat].
  edestruct (likelihood_loop_short (self w1) [ids] [cts]) as [e ->];
    [simpl; lia|exact Hlen|].
  cbn [rbind]. eauto.
Qed.

End SingleString.

(** X7 on the fresh model and the caller's two documents. *)
Lemma e_step_never_returns_witness :
  live_docs world_run (DocList 0)
  ∧ ∃ e, (do_e_step psi_run draw_run (DocList 0) world_run).1 = Raise e.
Proof.
  assert (Hlive : live_docs world_run (DocList 0)) by (simpl; eauto).
  split; [exact Hlive|].
  destruct (e_step_never_returns psi_run draw_run world_run (DocList 0) Hlive)
    as (e & He & _).
  exists e. exact He.
Defined.

(** X8 on the fresh model and the bare string "cat dog". *)
Lemma update_never_returns_witness :
  live_docs world_run (DocStr "cat dog")
  ∧ _batches_to_date
      (self (update_lambda psi_run pow_nonpos_run gammaln_run store_terms_run
               draw_run (DocStr "cat dog") world_run).2) = 0%Z.
Proof.
  split; [exact I|].
  destruct (update_never_returns psi_run pow_nonpos_run gammaln_run store_terms_run
              draw_run world_run (DocStr "cat dog") I) as (_ & Hb & _).
  exact Hb.
Defined.

(** X9 on the fresh model and the caller's two documents: [_D] is 4. *)
Lemma e_step_then_bound_witness :
  heap world_run !! 0%nat = Some docs_run
  ∧ _D (self (approx_bound psi_run gammaln_run store_terms_run (DocList 0) []
                (do_e_step psi_run draw_run (DocList 0) world_run).2).2) = 4%Z.
Proof.
  split; [reflexivity|].
  destruct (e_step_then_bound_counts_twice psi_run gammaln_run store_terms_run
              draw_run [] world_run 0%nat docs_run eq_refl) as (_ & _ & HD & _).
  exact HD.
Defined.

(** X10 on the bare string "cat". *)
Lemma bound_of_a_bare_string_witness :
  (2 <= String.length "cat")%nat
  ∧ ∃ e, (approx_bound psi_run gammaln_run store_terms_run (DocStr "cat")
            [[1%R; 1%R]] world_run).1 = Raise e.
Proof.
  assert (Hlen : (2 <= String.length "cat")%nat) by (simpl; lia).
  split; [exact Hlen|].
  exact (bound_of_a_bare_string_raises psi_run gammaln_run store_terms_run
           [[1%R; 1%R]] world_run "cat" Hlen).
Defined.

(** ** The numbers of the E-step and of the bound *)



Lemma elem_le_vsum (v : vec) (a : R) :
  Forall positive v → a ∈ v → (a <= vsum v)%R.
Proof.
  induction 1 as [|x v Hx Hv IH]; intros Ha; [inversion Ha|].
  apply elem_of_cons in Ha. unfold vsum in *. simpl.
  pose proof (vsum_nonneg v (positive_nonneg v Hv)) as Hsum. unfold vsum in Hsum.
  unfold positive in Hx.
  destruct Ha as [-> | Ha]; [lra|]. specialize (IH Ha). lra.
Qed.

(** X12. On a matrix of positive entries, and for a digamma that
    increases on the positive reals, every expected logarithm that
    [dirichlet_expectation] returns is at most 0, so that every entry
    of its exponential, as kept in [expElogtheta] and [_expElogbeta],
    lies in (0, 1]; the result has as many rows as the input. *)
Theorem expected_log_is_not_positive (psi : R → R) (m m' : mat) :
  (∀ x y, 0 < x → x <= y → psi x <= psi y)%R →
  Forall (Forall positive) m →
  dirichlet_expectation psi (Arr2 m) = Ok (Arr2 m') →
  length m' = length m
  ∧ Forall (Forall (fun e => e <= 0 ∧ 0 < exp e <= 1)%R) m'.
Proof.
  intros Hmono Hpos. rewrite dirichlet_expectation_matrix. intros [= <-].
  split; [apply length_map|].
  induction Hpos as [|row m Hrow _ IH]; simpl; constructor; [|exact IH].
  assert (Hin : ∀ a, a ∈ row → (a <= vsum row)%R).
  { intros a Ha. apply elem_le_vsum; assumption. }
  clear IH. revert Hin. generalize (vsum row) as total.
  induction Hrow as [|a row Ha _ IH]; intros total Hin; simpl; constructor.
  - assert (Hle : (psi a <= psi total)%R).
    { apply Hmono; [exact Ha|]. apply Hin. apply list_elem_of_here. }
    split; [lra|]. split; [apply exp_pos|].
    rewrite <- exp_0.
    destruct (Req_dec (psi a - psi total) 0) as [-> | Hne]; [lra|].
    left. apply exp_increasing. lra.
  - apply IH. intros b Hb. apply Hin. apply list_elem_of_further. exact Hb.
Qed.

(** X12 on the matrix ((1, 2)), with the logarithm for the digamma. *)
Lemma expected_log_witness :
  ∃ m', dirichlet_expectation psi_run (Arr2 [[1%R; 2%R]]) = Ok (Arr2 m')
        ∧ Forall (Forall (fun e => e <= 0 ∧ 0 < exp e <= 1)%R) m'.
Proof.
  assert (Hmono : (∀ x y, 0 < x → x <= y → psi_run x <= psi_run y)%R).
  { intros x y Hx [Hlt | ->]; [|lra]. left. apply ln_increasing; assumption. }
  assert (Hpos : Forall (Forall positive) [[1%R; 2%R]]).
  { repeat constructor; unfold positive; lra. }
  eexists. split; [apply dirichlet_expectation_matrix|].
  exact (proj2 (expected_log_is_not_positive psi_run [[1%R; 2%R]] _
                  Hmono Hpos (dirichlet_expectation_matrix psi_run _))).
Defined.

Lemma take_no_columns (M B : mat) :
  take_cols M [] = Ok B → Forall (fun row => row = []) B.
Proof.
  intros HB. apply mapR_Forall2 in HB.
  induction HB as [|row row' M B Hrow _ IH]; constructor; [|exact IH].
  simpl in Hrow. congruence.
Qed.

(** X13. A document without words gets the prior: with no word id,
    the update of line 191 yields alpha in every component. *)
Theorem gamma_of_an_empty_document (alpha : R) (e p : vec) (M B : mat) (g : vec) :
  take_cols M [] = Ok B →
  gamma_update alpha e [] p B = Ok g →
  Forall (fun x => x = alpha) g.
Proof.
  intros HB. apply take_no_columns in HB. unfold gamma_update.
  destruct (broadcast Rdiv (map INR []) p) as [q|] eqn:Hq; cbn [rbind]; [|discriminate].
  assert (q = []) as ->.
  { unfold broadcast in Hq. simpl in Hq.
    destruct p as [|x [|y p]]; simpl in Hq; congruence. }
  destruct (dot_vmT [] B) as [s|] eqn:Hs; cbn [rbind]; [|discriminate].
  assert (Hzero : Forall (fun x => x = 0%R) s).
  { unfold dot_vmT in Hs.
    destruct (forallb (fun row : vec => (length row =? length (@nil R))%nat) B);
      [|discriminate].
    injection Hs as <-. clear -HB.
    induction HB as [|row B -> _ IH]; simpl; constructor; [reflexivity|exact IH]. }
  destruct (broadcast Rmult e s) as [t|] eqn:Ht; cbn [rbind]; [|discriminate].
  intros [= <-].
  assert (Ht0 : Forall (fun x => x = 0%R) t).
  { eapply (broadcast_Forall (fun _ => True) (fun x => x = 0%R)); [| |exact Hzero|exact Ht].
    - intros x y _ ->. lra.
    - apply Forall_true. auto. }
  eapply map_Forall; [|exact Ht0]. intros x ->. simpl. lra.
Qed.

(** X13 for two topics and alpha = 0.1. *)
Lemma gamma_of_an_empty_document_witness :
  take_cols [[1%R; 2%R]; [3%R; 4%R]] [] = Ok [[]; []]
  ∧ ∃ g, gamma_update (1 / 10) [1%R; 1%R] [] [] [[]; []] = Ok g
         ∧ Forall (fun x => x = (1 / 10)%R) g.
Proof.
  assert (Hcols : take_cols [[1%R; 2%R]; [3%R; 4%R]] [] = Ok [[]; []]) by reflexivity.
  assert (Hg : gamma_update (1 / 10) [1%R; 1%R] [] [] [[]; []]
               = Ok [(1 / 10 + 1 * 0)%R; (1 / 10 + 1 * 0)%R]) by reflexivity.
  split; [exact Hcols|]. eexists. split; [exact Hg|].
  exact (gamma_of_an_empty_document _ _ _ _ _ _ Hcols Hg).
Defined.

Section LoopInvariants.

Variable step : doc_vars → result (doc_vars * R).

(** Whatever every completed pass establishes holds at a normal exit
    of a loop that has a pass to make. *)
Lemma fixed_point_establishes (P : doc_vars → Prop) (its : list nat) (v v' : doc_vars) :
  (∀ v0 v1 c, step v0 = Ok (v1, c) → P v1) →
  its ≠ [] →
  outcome (fixed_point its step v) = Ok v' → P v'.
Proof.
  intros Hstep. revert v. induction its as [|it its IH]; intros v Hne; [contradiction|].
  simpl. destruct (step v) as [[v1 c]|e] eqn:Hv; simpl; [|discriminate].
  destruct (Rlt_dec c meanchangethresh); simpl.
  - intros [= <-]. eapply Hstep. exact Hv.
  - destruct its as [|it' its'].
    + simpl. intros [= <-]. eapply Hstep. exact Hv.
    + apply IH. discriminate.
Qed.

End LoopInvariants.

Lemma compute_phinorm_floor (e : vec) (B : mat) (n : nat) (p : vec) :
  Forall nonneg e → Forall (Forall nonneg) B →
  compute_phinorm e B n = Ok p →
  length p = n ∧ Forall (fun x => eps <= x)%R p.
Proof.
  intros He HB. unfold compute_phinorm, dot_vm.
  destruct (length e =? length B)%nat; simpl; [|discriminate].
  intros [= <-]. split; [rewrite !length_map, length_seq; reflexivity|].
  induction (seq 0 n) as [|j js IH]; simpl; constructor; [|exact IH].
  pose proof (inner_nonneg e (column B j) He (column_nonneg B j HB)). lra.
Qed.

(** X14. The variables with which the loop of a document (lines
    185-199) ends belong together: [gammad] has come out of the
    update of line 191, [Elogthetad] is its Dirichlet expectation,
    [expElogthetad] the exponential of that, and [phinorm] has one
    entry per word id, none below 1e-100; so the gamma drawn at
    random is never what the loop ends on. *)
Theorem loop_exit_is_consistent (psi : R → R) (alpha : R) (Elogbeta : mat)
  (ids cts : list nat) (gamma_d Elogtheta_d expElogtheta_d : vec)
  (run : loop_run) (v : doc_vars) :
  document_fixed_point psi alpha (map (map exp) Elogbeta) ids cts
    gamma_d Elogtheta_d expElogtheta_d = Ok run →
  outcome run = Ok v →
  (∃ e p B, gamma_update alpha e cts p B = Ok (gammad v))
  ∧ dirichlet_expectation psi (Arr1 (gammad v)) = Ok (Arr1 (Elogthetad v))
  ∧ expElogthetad v = map exp (Elogthetad v)
  ∧ length (phinorm v) = length ids
  ∧ Forall (fun x => eps <= x)%R (phinorm v).
Proof.
  unfold document_fixed_point.
  assert (Hits : seq 0 100 ≠ []) by (rewrite <- length_zero_iff_nil, length_seq; lia).
  revert Hits. generalize (seq 0 100) as its. intros its Hits.
  destruct (take_cols (map (map exp) Elogbeta) ids) as [B|] eqn:HB;
    cbn [rbind]; [|discriminate].
  destruct (compute_phinorm expElogtheta_d B (length ids)) as [p0|];
    cbn [rbind]; [|discriminate].
  intros [= <-].
  assert (HBpos : Forall (Forall nonneg) B).
  { eapply Forall_impl; [eapply take_cols_Forall; [exact HB|apply exp_matrix_positive]|].
    apply positive_nonneg. }
  intros Hout.
  apply (fixed_point_establishes _
           (fun v => (∃ e p B, gamma_update alpha e cts p B = Ok (gammad v))
                     ∧ dirichlet_expectation psi (Arr1 (gammad v)) = Ok (Arr1 (Elogthetad v))
                     ∧ expElogthetad v = map exp (Elogthetad v)
                     ∧ length (phinorm v) = length ids
                     ∧ Forall (fun x => eps <= x)%R (phinorm v))
           its _ v) in Hout; [exact Hout| |exact Hits].
  clear v Hout. intros v0 v1 c. unfold refine.
  destruct (gamma_update alpha (expElogthetad v0) cts (phinorm v0) B) as [g|] eqn:Hg;
    cbn [rbind]; [|discriminate].
  destruct (dirichlet_expectation psi (Arr1 g)) as [E|] eqn:HE; cbn [rbind]; [|discriminate].
  destruct E as [El|El]; cbn [rbind as_vec]; [|discriminate].
  destruct (compute_phinorm (map exp El) B (length ids)) as [p|] eqn:Hp;
    cbn [rbind]; [|discriminate].
  destruct (broadcast Rminus g (gammad v0)) as [ch|]; cbn [rbind]; [|discriminate].
  intros [= <- _]. cbn [gammad Elogthetad expElogthetad phinorm].
  split; [eauto|]. split; [exact HE|]. split; [reflexivity|].
  eapply compute_phinorm_floor; [| |exact Hp]; [|exact HBpos].
  apply positive_nonneg, exp_vector_positive.
Qed.

(** X14 on the run of one topic and one word seen twice. *)
Lemma loop_exit_witness :
  document_fixed_point psi_run (1 / 10) (map (map exp) [[0%R]]) [0%nat] [2%nat]
    [1%R] [0%R] (map exp [0%R]) = Ok run_one_topic
  ∧ outcome run_one_topic = Ok exit_one_topic
  ∧ Forall (fun x => eps <= x)%R (phinorm exit_one_topic).
Proof.
  split; [apply one_topic_run|]. split; [reflexivity|].
  exact (proj2 (proj2 (proj2 (proj2
           (loop_exit_is_consistent psi_run (1 / 10) [[0%R]] [0%nat] [2%nat]
              [1%R] [0%R] (map exp [0%R]) run_one_topic exit_one_topic
              (one_topic_run psi_run) eq_refl))))).
Defined.

Lemma lookup_row_out_of_range (row : vec) (ids : list nat) (id : nat) :
  id ∈ ids → (length row <= id)%nat →
  mapR (fun j => match row !! j with
                 | Some x => Ok x
                 | None => Raise IndexError
                 end) ids = Raise IndexError.
Proof.
  intros Hin Hlen. induction ids as [|j ids IH]; [inversion Hin|].
  cbn [mapR]. destruct (row !! j) as [x|] eqn:Hj; [|reflexivity]. cbn [rbind].
  apply elem_of_cons in Hin. destruct Hin as [-> | Hin].
  - pose proof (lookup_ge_None_2 row j Hlen) as Hnone.
    unfold vec in Hj. rewrite Hnone in Hj. discriminate.
  - rewrite (IH Hin). reflexivity.
Qed.

(** X15. A word id without a column in the cached matrix stops the
    loop of its document with IndexError at line 179: the cache
    [_expElogbeta] is only as wide as the vocabulary was when it was
    last refreshed, while [parse_new_docs] may since have given ids
    to new words. *)
Theorem word_beyond_the_cache_raises (psi : R → R) (alpha : R) (row : vec) (M : mat)
  (ids cts : list nat) (gamma_d Elogtheta_d expElogtheta_d : vec) (id : nat) :
  id ∈ ids → (length row <= id)%nat →
  document_fixed_point psi alpha (row :: M) ids cts gamma_d Elogtheta_d expElogtheta_d
  = Raise IndexError.
Proof.
  intros Hin Hlen. unfold document_fixed_point, take_cols.
  cbn [mapR]. rewrite (lookup_row_out_of_range row ids id Hin Hlen). reflexivity.
Qed.

(** X15 on a cache of one column and the ids 0 and 1. *)
Lemma word_beyond_the_cache_witness :
  (1%nat ∈ [0%nat; 1%nat]) ∧ (length [1%R] <= 1)%nat
  ∧ document_fixed_point psi_run (1 / 10) [[1%R]] [0%nat; 1%nat] [1%nat; 1%nat]
      [1%R] [0%R] [1%R] = Raise IndexError.
Proof.
  assert (Hin : 1%nat ∈ [0%nat; 1%nat]) by (apply list_elem_of_further, list_elem_of_here).
  assert (Hlen : (length [1%R] <= 1)%nat) by (simpl; lia).
  split; [exact Hin|]. split; [exact Hlen|].
  exact (word_beyond_the_cache_raises psi_run (1 / 10) [1%R] [] [0%nat; 1%nat]
           [1%nat; 1%nat] [1%R] [0%R] [1%R] 1%nat Hin Hlen).
Defined.

Lemma vsum_shifted (m : R) (v : vec) :
  vsum (map (fun t => exp (t - m)) v) = (exp (- m) * vsum (map exp v))%R.
Proof.
  unfold vsum. induction v as [|t v IH]; simpl; [lra|].
  rewrite IH. unfold Rminus. rewrite exp_plus. lra.
Qed.

Lemma vsum_exp_positive (v : vec) : v ≠ [] → (0 < vsum (map exp v))%R.
Proof.
  destruct v as [|t v]; [contradiction|]. intros _. unfold vsum. simpl.
  pose proof (exp_pos t).
  pose proof (vsum_nonneg (map exp v) (positive_nonneg _ (exp_vector_positive v))) as H0.
  unfold vsum in H0. lra.
Qed.

Lemma py_max_nonempty (v : vec) (m : R) : py_max v = Ok m → v ≠ [].
Proof. destruct v; [discriminate|discriminate]. Qed.

(** X16. Subtracting the maximum changes nothing: what lines 292-294
    compute for a word is the logarithm of the sum over the topics of
    exp(Elogtheta[d, k] + Elogbeta[k, id]). *)
Theorem word_phinorm_is_log_sum_exp {dw : Type} `{!DirichletWords dw}
  (self : StreamLDA dw) (Elogtheta : mat) (d id : nat) (x : R) :
  word_phinorm self Elogtheta d id = Ok x →
  ∃ row column temp,
    item Elogtheta d = Ok row
    ∧ mapR (fun r : vec => item r id) (_Elogbeta self) = Ok column
    ∧ broadcast Rplus row column = Ok temp
    ∧ x = ln (vsum (map exp temp)).
Proof.
  unfold word_phinorm.
  destruct (item Elogtheta d) as [row|]; cbn [rbind]; [|discriminate].
  destruct (mapR (fun r : vec => item r id) (_Elogbeta self)) as [column|];
    cbn [rbind]; [|discriminate].
  destruct (broadcast Rplus row column) as [temp|] eqn:Htemp; cbn [rbind]; [|discriminate].
  destruct (py_max temp) as [tmax|] eqn:Hmax; cbn [rbind]; [|discriminate].
  intros [= <-]. exists row, column, temp.
  split; [reflexivity|]. split; [reflexivity|]. split; [exact Htemp|].
  rewrite vsum_shifted.
  pose proof (vsum_exp_positive temp (py_max_nonempty _ _ Hmax)) as Hpos.
  rewrite ln_mult by (try apply exp_pos; exact Hpos).
  rewrite ln_exp. lra.
Qed.

(** X16 for two topics whose expectations are all 0. *)
Lemma word_phinorm_witness :
  ∃ x, word_phinorm (set_Elogbeta [[0%R]; [0%R]] model_run) [[0%R; 0%R]] 0 0 = Ok x
       ∧ x = ln (vsum (map exp [(0 + 0)%R; (0 + 0)%R])).
Proof.
  eexists. split; [reflexivity|].
  destruct (word_phinorm_is_log_sum_exp
              (set_Elogbeta [[0%R]; [0%R]] model_run) [[0%R; 0%R]] 0 0 _ eq_refl)
    as (row & column & temp & Hrow & Hcol & Htemp & ->).
  injection Hrow as <-. injection Hcol as <-. injection Htemp as <-.
  reflexivity.
Defined.

(** X17. With kappa = 0 every batch weighs 1, the setting the
    docstring of the constructor names for batch VB: for a positive
    base [_tau0 + _batches_to_date] (the stored [_tau0] is the
    constructor's tau0 + 1) line 236 computes rhot = 1. *)
Theorem rhot_is_one_for_kappa_zero {dw : Type} `{!DirichletWords dw}
  (pow_nonpos : R → R → result R) (self : StreamLDA dw) :
  (0 < _tau0 self + IZR (_batches_to_date self))%R →
  _kappa self = 0%R →
  rhot_of pow_nonpos self = Ok 1%R.
Proof.
  intros Hbase Hk. rewrite rhot_of_positive_base by exact Hbase.
  rewrite Hk, Ropp_0, Rpower_O by exact Hbase. reflexivity.
Qed.

(** X17 on [StreamLDA(2, 0.1, 0.1, 1, 0)] after seven batches. *)
Lemma rhot_is_one_witness :
  ∃ self : StreamLDA word_store,
    __init__ 2 (1 / 10) (1 / 10) 1 0 = Ok self
    ∧ rhot_of pow_nonpos_run (set_batches_to_date 7 self) = Ok 1%R.
Proof.
  eexists. split; [reflexivity|].
  apply rhot_is_one_for_kappa_zero; simpl; [lra|reflexivity].
Defined.

(** X18. With a capacity that is not negative the housekeeping of
    lines 248-251 never raises and never asks the store to forget a
    proper fraction: the store is left alone when it is within its
    capacity, and otherwise asked to forget 0 (capacity positive) or 1
    (capacity 0); nothing but the store changes. *)
Theorem housekeeping_forgets_all_or_nothing {dw : Type} `{!DirichletWords dw}
  (w : world dw) :
  let size := Z.of_nat (dw_words_len (_lambda (self w))) in
  let capacity := dw_max_tables (_lambda (self w)) in
  (0 <= capacity)%Z →
  housekeeping w
  = (Ok tt,
     if (size <=? capacity)%Z then w
     else {| self := set_lambda
                       (dw_forget (if (capacity =? 0)%Z then 1%R else 0%R)
                          (_lambda (self w))) (self w);
             heap := heap w |}).
Proof.
  intros size capacity Hcap. unfold housekeeping, bind, get_self, lift, modify_self, ret.
  fold size. fold capacity.
  destruct (Z.ltb_spec 0 (size - capacity)) as [Hover|Hin];
    destruct (Z.leb_spec size capacity) as [Hle|Hgt]; try lia.
  - unfold py2_int_div.
    destruct (Z.eqb_spec size 0) as [E|Hsize]; [lia|].
    destruct (Z.eqb_spec capacity 0) as [E|Hpos].
    + rewrite E, Z.sub_0_r, Z.div_same by exact Hsize. reflexivity.
    + rewrite Z.div_small by lia. reflexivity.
  - destruct w. reflexivity.
Qed.

(** X18 on the store of three words whose capacity is two. *)
Lemma housekeeping_witness :
  (0 <= dw_max_tables (_lambda (self full_world)))%Z
  ∧ housekeeping full_world
    = (Ok tt, {| self := set_lambda (dw_forget 0%R (_lambda (self full_world)))
                           (self full_world);
                 heap := heap full_world |}).
Proof.
  assert (Hcap : (0 <= dw_max_tables (_lambda (self full_world)))%Z)
    by (lazy; discriminate).
  split; [exact Hcap|].
  exact (housekeeping_forgets_all_or_nothing full_world Hcap).
Defined.
